(** * remix-hook-form utilities: a shallow embedding of [src/utilities/index.ts]

    The file embeds the helper functions of the module
    ([generateFormData], [getFormDataFromSearchParams], [isGet],
    [getValidatedFormData], [validateFormData], [createFormData],
    [parseFormData], [mergeErrors], [parseRightValue]) as Rocq functions
    over a small model of JavaScript values, and proves properties of them.

    Modelling conventions.
    - A JavaScript value is a term of [value].  Objects carry their own
      enumerable string-keyed properties as an association list kept in the
      order in which the engine enumerates them (array indices ascending,
      then the other keys in insertion order).  Arrays carry their elements
      (a hole reads as [VUndefined], which is all this code observes) and
      the named properties that were put on them.
    - The module is an ES module, hence strict-mode code: creating a
      property on a primitive raises a [TypeError].
    - Property names that the host resolves along the prototype chain
      ([toString], [constructor], [__proto__], [push], ...) are given by a
      predicate [builtin]; reading such a name from a value that does not
      own it, or assigning to it, yields [Unmodelled], and so does assigning
      to the [length] of a list.  [File] values are opaque: a property
      access on them is [Unmodelled] too.
    - Effects are explicit: a function that can throw returns an [outcome];
      the object mutated in place by the source is threaded through and
      returned; the callback of [mergeErrors] acts on an abstract world
      and is given the error tree as it is when the callback is called
      (it reads the tree and does not change it). *)

From Stdlib Require Import String Ascii List ZArith NArith Bool Arith Lia.
From Stdlib Require Import DecimalString.
Import ListNotations.
Local Open Scope string_scope.

(** ** JavaScript values *)

Unset Elimination Schemes.

Inductive value : Type :=
| VUndefined
| VNull
| VBool (b : bool)
| VNum (n : Z)
| VStr (s : string)
| VFile (name : string)
| VArr (elems : list value) (extra : list (string * value))
| VObj (props : list (string * value)).

Set Elimination Schemes.

Definition props := list (string * value).

(** ** Results of running code that may throw *)

Inductive exn : Type :=
| TypeError
| SyntaxError
| Error (msg : string).

Inductive outcome (A : Type) : Type :=
| Ok (a : A)
| Throw (e : exn)
| Unmodelled
| OutOfFuel.

Arguments Ok {A} a.
Arguments Throw {A} e.
Arguments Unmodelled {A}.
Arguments OutOfFuel {A}.

Definition bind {A B : Type} (m : outcome A) (f : A -> outcome B) : outcome B :=
  match m with
  | Ok a => f a
  | Throw e => Throw e
  | Unmodelled => Unmodelled
  | OutOfFuel => OutOfFuel
  end.

Declare Scope outcome_scope.
Delimit Scope outcome_scope with outcome.
Notation "x <- m ;; k" := (bind m (fun x => k))
  (at level 61, m at next level, right associativity) : outcome_scope.
Local Open Scope outcome_scope.

(** ** Primitive operations of the language *)

(** [!!v] *)
Definition truthy (v : value) : bool :=
  match v with
  | VUndefined | VNull => false
  | VBool b => b
  | VNum n => negb (Z.eqb n 0)
  | VStr s => negb (String.eqb s "")
  | VFile _ | VArr _ _ | VObj _ => true
  end.

(** [typeof v === "object"] *)
Definition typeof_object (v : value) : bool :=
  match v with
  | VNull | VFile _ | VArr _ _ | VObj _ => true
  | _ => false
  end.

(** [typeof v === "string"] *)
Definition typeof_string (v : value) : bool :=
  match v with
  | VStr _ => true
  | _ => false
  end.

(** [Array.isArray(v)] *)
Definition isArray (v : value) : bool :=
  match v with
  | VArr _ _ => true
  | _ => false
  end.

(** *** Strings and regular expressions *)

Definition is_digit (c : ascii) : bool :=
  let n := nat_of_ascii c in (48 <=? n)%nat && (n <=? 57)%nat.

Fixpoint all_digits (s : string) : bool :=
  match s with
  | EmptyString => true
  | String c s' => is_digit c && all_digits s'
  end.

(** [/^\d+$/.test(s)] *)
Definition test_index (s : string) : bool :=
  negb (String.eqb s "") && all_digits s.

(** [key.split(".")], as the first segment and the remaining ones: the
    result of [split] on a string is never empty. *)
Fixpoint split_dot (s : string) : string * list string :=
  match s with
  | EmptyString => (EmptyString, [])
  | String c s' =>
      let '(h, t) := split_dot s' in
      if Ascii.eqb c "." then (EmptyString, h :: t) else (String c h, t)
  end.

Fixpoint drop_digits (l : list ascii) : list ascii :=
  match l with
  | c :: l' => if is_digit c then drop_digits l' else l
  | [] => []
  end.

(** The regular expression [/\[\d*\]$|\[\]$/]: [strip_bracket s] is
    [Some (s.replace(re, ""))] when [re.test(s)], and [None] otherwise.  A
    match is a suffix ["[" digits "]"], so it is found from the end of the
    string. *)
Definition strip_bracket (s : string) : option string :=
  match rev (list_ascii_of_string s) with
  | c :: r =>
      if Ascii.eqb c "]" then
        match drop_digits r with
        | c' :: r' =>
            if Ascii.eqb c' "[" then Some (string_of_list_ascii (rev r'))
            else None
        | [] => None
        end
      else None
  | [] => None
  end.

Fixpoint digits_value (acc : N) (s : string) : N :=
  match s with
  | EmptyString => acc
  | String c s' => digits_value (10 * acc + (N_of_ascii c - 48)) s'
  end.

(** The decimal name of a number. *)
Definition index_name (n : N) : string :=
  NilZero.string_of_uint (N.to_uint n).

(** An array index is a canonical numeric string (the name of its own
    value) below [2^32 - 1]. *)
Definition array_index (s : string) : option N :=
  if test_index s then
    let n := digits_value 0 s in
    if String.eqb (index_name n) s && (n <? 4294967295)%N then Some n else None
  else None.

(** *** Own properties *)

Fixpoint lookup (k : string) (ps : props) : option value :=
  match ps with
  | [] => None
  | (k', v) :: ps' => if String.eqb k k' then Some v else lookup k ps'
  end.

Definition has_key (k : string) (ps : props) : bool :=
  match lookup k ps with
  | Some _ => true
  | None => false
  end.

Fixpoint replace_prop (k : string) (v : value) (ps : props) : props :=
  match ps with
  | [] => []
  | (k', v') :: ps' =>
      if String.eqb k k' then (k', v) :: ps' else (k', v') :: replace_prop k v ps'
  end.

(** A new index key goes after the smaller index keys and before
    everything else. *)
Fixpoint insert_index (i : N) (k : string) (v : value) (ps : props) : props :=
  match ps with
  | [] => [(k, v)]
  | (k', v') :: ps' =>
      match array_index k' with
      | Some j =>
          if (j <? i)%N then (k', v') :: insert_index i k v ps'
          else (k, v) :: ps
      | None => (k, v) :: ps
      end
  end.

(** Defining or overwriting an own property, keeping the enumeration order
    of the engine. *)
Definition set_prop (k : string) (v : value) (ps : props) : props :=
  if has_key k ps then replace_prop k v ps
  else match array_index k with
       | Some i => insert_index i k v ps
       | None => (ps ++ [(k, v)])%list
       end.

(** [a[i] = v] on the element list: an index past the end extends the
    array, leaving holes. *)
Fixpoint set_elem (i : nat) (v : value) (es : list value) : list value :=
  match i, es with
  | O, [] => [v]
  | O, _ :: es' => v :: es'
  | S i', [] => VUndefined :: set_elem i' v []
  | S i', e :: es' => e :: set_elem i' v es'
  end.

Fixpoint indexed (i : nat) (es : list value) : props :=
  match es with
  | [] => []
  | e :: es' => (index_name (N.of_nat i), e) :: indexed (S i) es'
  end.

Fixpoint chars (s : string) : list value :=
  match s with
  | EmptyString => []
  | String c s' => VStr (String c EmptyString) :: chars s'
  end.

(** [Object.entries(v)] for a value that is neither [undefined] nor
    [null]; also the properties copied by a spread [{...v}]. *)
Definition entries (v : value) : props :=
  match v with
  | VObj ps => ps
  | VArr es ex => (indexed 0 es ++ ex)%list
  | VStr s => indexed 0 (chars s)
  | _ => []
  end.

(** [{...init, ...v}]: the properties of [v] are defined one by one over
    those of the literal. *)
Definition spread (init : props) (v : value) : props :=
  fold_left (fun acc kv => set_prop (fst kv) (snd kv) acc) (entries v) init.

(** [v?.name] for a name that no built-in prototype defines. *)
Definition opt_member (v : value) (name : string) : value :=
  match v with
  | VObj ps => match lookup name ps with Some x => x | None => VUndefined end
  | VArr _ ex => match lookup name ex with Some x => x | None => VUndefined end
  | _ => VUndefined
  end.

(** The nesting depth of a value. *)
Fixpoint depth (v : value) : nat :=
  match v with
  | VArr es ex =>
      S (Nat.max
           ((fix elems_depth (l : list value) : nat :=
               match l with
               | [] => O
               | e :: l' => Nat.max (depth e) (elems_depth l')
               end) es)
           ((fix props_depth (l : list (string * value)) : nat :=
               match l with
               | [] => O
               | (_, x) :: l' => Nat.max (depth x) (props_depth l')
               end) ex))
  | VObj ps =>
      S ((fix props_depth (l : list (string * value)) : nat :=
            match l with
            | [] => O
            | (_, x) :: l' => Nat.max (depth x) (props_depth l')
            end) ps)
  | _ => O
  end.

(** Follows the words of the specification ("if the method is GET,
    case-insensitive"): equality of two strings up to the case of their
    ASCII letters. *)
Definition lower (c : ascii) : ascii :=
  let n := nat_of_ascii c in
  if (65 <=? n)%nat && (n <=? 90)%nat then ascii_of_nat (n + 32) else c.

Fixpoint lowercase (s : string) : string :=
  match s with
  | EmptyString => EmptyString
  | String c s' => String (lower c) (lowercase s')
  end.

Definition equal_ignoring_case (a b : string) : bool :=
  String.eqb (lowercase a) (lowercase b).

(** ** Form data *)

(** A [FormData] entry value is a string or a [File]. *)
Inductive entry : Type :=
| EStr (s : string)
| EFile (name : string).

Definition FormData := list (string * entry).

Definition value_of_entry (e : entry) : value :=
  match e with
  | EStr s => VStr s
  | EFile n => VFile n
  end.

(** [formData.get(key)]: the first value under [key], or [null]. *)
Fixpoint FormData_get (fd : FormData) (key : string) : value :=
  match fd with
  | [] => VNull
  | (k, e) :: fd' => if String.eqb key k then value_of_entry e else FormData_get fd' key
  end.

(** ** A host *)

(** The functions below stand for what the host provides, in the closed
    examples at the end of the file: the names defined on the built-in
    prototypes, and a JSON codec for the values whose numbers are integers
    and whose strings hold bytes. *)

Definition host_builtin (k : string) : bool :=
  existsb (String.eqb k)
    ["__proto__"; "constructor"; "hasOwnProperty"; "isPrototypeOf";
     "propertyIsEnumerable"; "toLocaleString"; "toString"; "valueOf";
     "__defineGetter__"; "__defineSetter__"; "__lookupGetter__";
     "__lookupSetter__";
     "at"; "concat"; "copyWithin"; "entries"; "every"; "fill"; "filter";
     "find"; "findIndex"; "findLast"; "findLastIndex"; "flat"; "flatMap";
     "forEach"; "includes"; "indexOf"; "join"; "keys"; "lastIndexOf"; "map";
     "pop"; "push"; "reduce"; "reduceRight"; "reverse"; "shift"; "slice";
     "some"; "sort"; "splice"; "toReversed"; "toSorted"; "toSpliced";
     "unshift"; "values"; "with";
     "anchor"; "big"; "blink"; "bold"; "charAt"; "charCodeAt"; "codePointAt";
     "endsWith"; "fixed"; "fontcolor"; "fontsize"; "isWellFormed"; "italics";
     "link"; "localeCompare"; "match"; "matchAll"; "normalize"; "padEnd";
     "padStart"; "repeat"; "replace"; "replaceAll"; "search"; "small";
     "split"; "startsWith"; "strike"; "sub"; "substr"; "substring"; "sup";
     "toLocaleLowerCase"; "toLocaleUpperCase"; "toLowerCase"; "toUpperCase";
     "toWellFormed"; "trim"; "trimEnd"; "trimLeft"; "trimRight"; "trimStart";
     "toExponential"; "toFixed"; "toPrecision"].

Definition quote : ascii := ascii_of_nat 34.

Definition hex_digit (n : nat) : ascii :=
  nth n (list_ascii_of_string "0123456789abcdef") "0"%char.

Definition json_escape (c : ascii) : string :=
  let n := nat_of_ascii c in
  if Ascii.eqb c quote then String "\" (String quote "")
  else if Ascii.eqb c "\" then "\\"
  else if (n =? 8)%nat then "\b"
  else if (n =? 9)%nat then "\t"
  else if (n =? 10)%nat then "\n"
  else if (n =? 12)%nat then "\f"
  else if (n =? 13)%nat then "\r"
  else if (n <? 32)%nat then
    "\u00" ++ String (hex_digit (n / 16)) (String (hex_digit (n mod 16)) "")
  else String c "".

Fixpoint json_escape_all (s : string) : string :=
  match s with
  | EmptyString => ""
  | String c s' => json_escape c ++ json_escape_all s'
  end.

Definition json_string (s : string) : string :=
  String quote (json_escape_all s ++ String quote "").

Fixpoint json_join (parts : list string) : string :=
  match parts with
  | [] => ""
  | [p] => p
  | p :: parts' => p ++ "," ++ json_join parts'
  end.

(** [JSON.stringify]: [undefined] has no text; inside a list it is
    written [null], inside an object its property is left out. *)
Fixpoint host_stringify (v : value) : option string :=
  match v with
  | VUndefined => None
  | VNull => Some "null"
  | VBool true => Some "true"
  | VBool false => Some "false"
  | VNum n => Some (NilZero.string_of_int (Z.to_int n))
  | VStr s => Some (json_string s)
  | VFile _ => Some "{}"
  | VArr es _ =>
      Some ("[" ++ json_join
                     (map (fun e => match host_stringify e with
                                    | Some t => t
                                    | None => "null"
                                    end) es) ++ "]")
  | VObj ps =>
      Some ("{" ++ json_join
                     (flat_map (fun kv => match host_stringify (snd kv) with
                                          | Some t => [json_string (fst kv) ++ ":" ++ t]
                                          | None => []
                                          end) ps) ++ "}")
  end.

Fixpoint skip_ws (l : list ascii) : list ascii :=
  match l with
  | c :: l' =>
      let n := nat_of_ascii c in
      if (n =? 32)%nat || (n =? 9)%nat || (n =? 10)%nat || (n =? 13)%nat
      then skip_ws l' else l
  | [] => []
  end.

Fixpoint after_prefix (p : list ascii) (l : list ascii) : option (list ascii) :=
  match p, l with
  | [], _ => Some l
  | a :: p', b :: l' => if Ascii.eqb a b then after_prefix p' l' else None
  | _ :: _, [] => None
  end.

Definition hex_value (c : ascii) : option nat :=
  let n := nat_of_ascii c in
  if (48 <=? n)%nat && (n <=? 57)%nat then Some (n - 48)
  else if (97 <=? n)%nat && (n <=? 102)%nat then Some (n - 87)
  else if (65 <=? n)%nat && (n <=? 70)%nat then Some (n - 55)
  else None.

Definition unescape (e : ascii) : option ascii :=
  if Ascii.eqb e quote then Some quote
  else if Ascii.eqb e "\" then Some "\"%char
  else if Ascii.eqb e "/" then Some "/"%char
  else if Ascii.eqb e "b" then Some (ascii_of_nat 8)
  else if Ascii.eqb e "t" then Some (ascii_of_nat 9)
  else if Ascii.eqb e "n" then Some (ascii_of_nat 10)
  else if Ascii.eqb e "f" then Some (ascii_of_nat 12)
  else if Ascii.eqb e "r" then Some (ascii_of_nat 13)
  else None.

(** The rest of a string literal, after its opening quote. *)
Fixpoint parse_string_body (l : list ascii) (acc : list ascii)
  : outcome (string * list ascii) :=
  match l with
  | [] => Throw SyntaxError
  | c :: l' =>
      if Ascii.eqb c quote then Ok (string_of_list_ascii (rev acc), l')
      else if Ascii.eqb c "\" then
        match l' with
        | e :: l'' =>
            if Ascii.eqb e "u" then
              match l'' with
              | h1 :: h2 :: h3 :: h4 :: l3 =>
                  match hex_value h1, hex_value h2, hex_value h3, hex_value h4 with
                  | Some a, Some b, Some c', Some d =>
                      if (a =? 0)%nat && (b =? 0)%nat
                      then parse_string_body l3 (ascii_of_nat (16 * c' + d) :: acc)
                      else Unmodelled
                  | _, _, _, _ => Throw SyntaxError
                  end
              | _ => Throw SyntaxError
              end
            else
              match unescape e with
              | Some x => parse_string_body l'' (x :: acc)
              | None => Throw SyntaxError
              end
        | [] => Throw SyntaxError
        end
      else if (nat_of_ascii c <? 32)%nat then Throw SyntaxError
      else parse_string_body l' (c :: acc)
  end.

Fixpoint take_digits (l : list ascii) (acc : list ascii) : list ascii * list ascii :=
  match l with
  | c :: l' => if is_digit c then take_digits l' (c :: acc) else (rev acc, l)
  | [] => (rev acc, [])
  end.

(** An integer literal; fractions and exponents are outside this host. *)
Definition parse_number (l : list ascii) : outcome (value * list ascii) :=
  let '(negative, l1) :=
    match l with
    | c :: l' => if Ascii.eqb c "-" then (true, l') else (false, l)
    | [] => (false, l)
    end in
  let '(ds, rest) := take_digits l1 [] in
  match ds with
  | [] => Throw SyntaxError
  | d :: ds' =>
      if Ascii.eqb d "0" && negb (Nat.eqb (List.length ds') 0) then Throw SyntaxError
      else
        match rest with
        | c :: _ =>
            if Ascii.eqb c "." || Ascii.eqb c "e" || Ascii.eqb c "E" then Unmodelled
            else
              let n := Z.of_N (digits_value 0 (string_of_list_ascii ds)) in
              Ok (VNum (if negative then - n else n), rest)
        | [] =>
            let n := Z.of_N (digits_value 0 (string_of_list_ascii ds)) in
            Ok (VNum (if negative then - n else n), rest)
        end
  end.

Definition expect (c : ascii) (l : list ascii) : outcome (list ascii) :=
  match skip_ws l with
  | c' :: l' => if Ascii.eqb c c' then Ok l' else Throw SyntaxError
  | [] => Throw SyntaxError
  end.

Fixpoint parse_value (fuel : nat) (l : list ascii) : outcome (value * list ascii) :=
  match fuel with
  | O => OutOfFuel
  | S fuel' =>
      let l0 := skip_ws l in
      match after_prefix (list_ascii_of_string "null") l0 with
      | Some r => Ok (VNull, r)
      | None =>
      match after_prefix (list_ascii_of_string "true") l0 with
      | Some r => Ok (VBool true, r)
      | None =>
      match after_prefix (list_ascii_of_string "false") l0 with
      | Some r => Ok (VBool false, r)
      | None =>
      match l0 with
      | [] => Throw SyntaxError
      | c :: r =>
          if Ascii.eqb c quote then
            st <- parse_string_body r [] ;;
            Ok (VStr (fst st), snd st)
          else if Ascii.eqb c "[" then
            match skip_ws r with
            | c' :: r' =>
                if Ascii.eqb c' "]" then Ok (VArr [] [], r')
                else parse_elements fuel' r []
            | [] => Throw SyntaxError
            end
          else if Ascii.eqb c "{" then
            match skip_ws r with
            | c' :: r' =>
                if Ascii.eqb c' "}" then Ok (VObj [], r')
                else parse_members fuel' r []
            | [] => Throw SyntaxError
            end
          else parse_number l0
      end end end end
  end

with parse_elements (fuel : nat) (l : list ascii) (acc : list value)
  : outcome (value * list ascii) :=
  match fuel with
  | O => OutOfFuel
  | S fuel' =>
      st <- parse_value fuel' l ;;
      match skip_ws (snd st) with
      | c :: r =>
          if Ascii.eqb c "," then parse_elements fuel' r (fst st :: acc)
          else if Ascii.eqb c "]" then Ok (VArr (rev (fst st :: acc)) [], r)
          else Throw SyntaxError
      | [] => Throw SyntaxError
      end
  end

with parse_members (fuel : nat) (l : list ascii) (acc : props)
  : outcome (value * list ascii) :=
  match fuel with
  | O => OutOfFuel
  | S fuel' =>
      l1 <- expect quote l ;;
      key <- parse_string_body l1 [] ;;
      l2 <- expect ":" (snd key) ;;
      st <- parse_value fuel' l2 ;;
      let acc' := set_prop (fst key) (fst st) acc in
      match skip_ws (snd st) with
      | c :: r =>
          if Ascii.eqb c "," then parse_members fuel' r acc'
          else if Ascii.eqb c "}" then Ok (VObj acc', r)
          else Throw SyntaxError
      | [] => Throw SyntaxError
      end
  end.

(** [JSON.parse] *)
Definition host_parse (text : string) : outcome value :=
  let l := list_ascii_of_string text in
  st <- parse_value (2 * List.length l + 2) l ;;
  match skip_ws (snd st) with
  | [] => Ok (fst st)
  | _ :: _ => Throw SyntaxError
  end.

(** *** Callbacks of the examples *)

(** The callback that counts its calls, and the one that records the
    tree it finds. *)
Definition counting : value -> nat -> nat := fun _ n => S n.


Section Utilities.

Set Default Proof Using "Type".

(** The property names that the host defines on its built-in prototypes. *)
Variable builtin : string -> bool.

(** *** Reading and writing a property *)

(** A name the receiver does not own is looked up along the prototype
    chain. *)
Definition inherited (k : string) : outcome value :=
  if builtin k then Unmodelled else Ok VUndefined.

Definition string_get (s : string) (k : string) : outcome value :=
  match array_index k with
  | Some i =>
      match String.get (N.to_nat i) s with
      | Some c => Ok (VStr (String c EmptyString))
      | None => inherited k
      end
  | None =>
      if String.eqb k "length" then Ok (VNum (Z.of_nat (String.length s)))
      else inherited k
  end.

(** [cur[k]] *)
Definition get (cur : value) (k : string) : outcome value :=
  match cur with
  | VUndefined | VNull => Throw TypeError
  | VFile _ => Unmodelled
  | VBool _ | VNum _ => inherited k
  | VStr s => string_get s k
  | VObj ps =>
      match lookup k ps with
      | Some v => Ok v
      | None => inherited k
      end
  | VArr es ex =>
      match array_index k with
      | Some i =>
          match nth_error es (N.to_nat i) with
          | Some v => Ok v
          | None => inherited k
          end
      | None =>
          if String.eqb k "length" then Ok (VNum (Z.of_nat (List.length es)))
          else match lookup k ex with
               | Some v => Ok v
               | None => inherited k
               end
      end
  end.

(** [cur[k] = v], returning the receiver after the assignment. *)
Definition put (cur : value) (k : string) (v : value) : outcome value :=
  match cur with
  | VUndefined | VNull | VBool _ | VNum _ | VStr _ => Throw TypeError
  | VFile _ => Unmodelled
  | VObj ps =>
      if builtin k then Unmodelled else Ok (VObj (set_prop k v ps))
  | VArr es ex =>
      match array_index k with
      | Some i => Ok (VArr (set_elem (N.to_nat i) v es) ex)
      | None =>
          if String.eqb k "length" || builtin k then Unmodelled
          else Ok (VArr es (set_prop k v ex))
      end
  end.

(** [cur.push(v)], returning the receiver after the call. *)
Definition push (cur : value) (v : value) : outcome value :=
  match cur with
  | VArr es ex =>
      if has_key "push" ex then Throw TypeError else Ok (VArr (es ++ [v])%list ex)
  | VFile _ => Unmodelled
  | _ => Throw TypeError
  end.

(** The source holds a reference to the object stored under [cur[k]] and
    mutates it; here the mutated object is stored back into its slot. *)
Definition store_back (cur : value) (k : string) (child : value) : value :=
  match cur with
  | VObj ps => VObj (replace_prop k child ps)
  | VArr es ex =>
      match array_index k with
      | Some i => VArr (set_elem (N.to_nat i) child es) ex
      | None => VArr es (replace_prop k child ex)
      end
  | _ => cur
  end.

(** ** [generateFormData] *)

(** The statements after the inner loop: the last key part. *)
Definition assign_last (currentObject : value) (lastKeyPart : string) (v : value)
  : outcome value :=
  match strip_bracket lastKeyPart with
  | Some key =>
      (* array[] or array[0] *)
      held <- get currentObject key ;;
      cur1 <- (if truthy held then Ok currentObject
               else put currentObject key (VArr [] [])) ;;
      arr <- get cur1 key ;;
      arr' <- push arr v ;;
      Ok (store_back cur1 key arr')
  | None =>
      if test_index lastKeyPart then push currentObject v
      else put currentObject lastKeyPart v
  end.

(** The inner loop over the key parts but the last, followed by the last
    part.  [walk cur keyPart rest v] returns [cur] after the entry has been
    written below it. *)
Fixpoint walk (currentObject : value) (keyPart : string) (rest : list string)
  (v : value) {struct rest} : outcome value :=
  match rest with
  | [] => assign_last currentObject keyPart v
  | next :: rest' =>
      held <- get currentObject keyPart ;;
      cur1 <- (if truthy held then Ok currentObject
               else put currentObject keyPart
                      (if test_index next then VArr [] [] else VObj [])) ;;
      child <- get cur1 keyPart ;;
      child' <- walk child next rest' v ;;
      Ok (store_back cur1 keyPart child')
  end.

(** The outer loop over the entries. *)
Fixpoint generate_from (outputObject : value) (formData : FormData) : outcome value :=
  match formData with
  | [] => Ok outputObject
  | (key, e) :: formData' =>
      let '(keyPart, rest) := split_dot key in
      out <- walk outputObject keyPart rest (value_of_entry e) ;;
      generate_from out formData'
  end.

Definition generateFormData (formData : FormData) : outcome value :=
  generate_from (VObj []) formData.

(** ** Requests *)

(** A request exposes its method, its URL and the asynchronous
    [formData()], which yields the entries of the body or rejects. *)
Record Request : Type := mkRequest {
  method : string;
  url : string;
  formData : outcome FormData
}.

(** [new URL(url).searchParams], provided by the host. *)
Variable searchParams : string -> outcome FormData.

(** [JSON.stringify] ([None] stands for [undefined]) and [JSON.parse],
    provided by the host. *)
Variable JSON_stringify : value -> option string.
Variable JSON_parse : string -> outcome value.

Definition getFormDataFromSearchParams (request : Request) : outcome value :=
  params <- searchParams (url request) ;;
  generateFormData params.

Definition isGet (request : Request) : bool :=
  String.eqb (method request) "GET" || String.eqb (method request) "get".

(** [v.name] for a name that no built-in prototype defines. *)
Definition member (v : value) (name : string) : outcome value :=
  match v with
  | VUndefined | VNull => Throw TypeError
  | _ => Ok (opt_member v name)
  end.

(** [Object.keys(v)] *)
Definition Object_keys (v : value) : outcome (list string) :=
  match v with
  | VUndefined | VNull => Throw TypeError
  | _ => Ok (map fst (entries v))
  end.

(** ** [validateFormData] *)

Definition Resolver := value -> value -> value -> outcome value.

Definition resolver_options : value :=
  VObj [("shouldUseNativeValidation", VBool false); ("fields", VObj [])].

Definition validateFormData (data : value) (resolver : Resolver) : outcome value :=
  result <- resolver data (VObj []) resolver_options ;;
  errors <- member result "errors" ;;
  values <- member result "values" ;;
  keys <- Object_keys errors ;;
  if (0 <? List.length keys)%nat then
    Ok (VObj [("errors", errors); ("data", VUndefined)])
  else
    Ok (VObj [("errors", VUndefined); ("data", values)]).

(** ** [createFormData] and [parseFormData] *)

(** [formData.append(key, x)] turns [undefined] into its name. *)
Definition createFormData (data : value) (key : string) : FormData :=
  let finalData :=
    match JSON_stringify data with
    | Some text => text
    | None => "undefined"
    end in
  [(key, EStr finalData)].

Definition parseFormData (request : Request) (key : string) : outcome value :=
  fd <- formData request ;;
  let data := FormData_get fd key in
  if negb (truthy data) then generateFormData fd
  else
    match data with
    | VStr text => JSON_parse text
    | _ => Throw (Error "Data is not a string")
    end.

(** ** [getValidatedFormData] *)

Definition getValidatedFormData (request : Request) (resolver : Resolver)
  : outcome value :=
  data <- (if isGet request then getFormDataFromSearchParams request
           else parseFormData request "formData") ;;
  validatedOutput <- validateFormData data resolver ;;
  Ok (VObj (set_prop "receivedValues" data (spread [] validatedOutput))).

(** ** [mergeErrors] and [parseRightValue] *)

Definition parseRightValue (key : string) (rightValue : value) : outcome value :=
  if String.eqb key "root" then
    serverError <- member rightValue "serverError" ;;
    let value1 :=
      if truthy serverError then
        VObj [("root.serverError", VObj (spread [("type", VStr "400")] serverError))]
      else rightValue in
    random <- member rightValue "random" ;;
    Ok (if truthy random then
          VObj [("root.random", VObj (spread [("type", VStr "random")] random))]
        else value1)
  else Ok rightValue.

(** The callback acts on a world of type [W]; the error tree is threaded
    next to it.  The callback closes over whatever it likes, the error
    tree among it: it is given the tree as it is when it is called. *)
Variable W : Type.

Definition noop : value -> W -> W := fun _ w => w.

Section MergeLoop.

(** The recursive call [mergeErrors(frontendErrors, sub)], with the default
    callback. *)
Variable recur : value -> value -> W -> outcome (value * W).

(** The body of the loop over the entries of [backendErrors]. *)
Definition merge_entry (frontendErrors : value) (w : W) (key : string)
  (rightValue : value) : outcome (value * W) :=
  if typeof_object rightValue && negb (isArray rightValue)
     && negb (truthy (opt_member rightValue "message")) then
    sub <- parseRightValue key rightValue ;;
    recur frontendErrors sub w
  else if truthy (opt_member rightValue "message") then
    fe <- put frontendErrors key (VObj (spread [("type", VStr "custom")] rightValue)) ;;
    Ok (fe, w)
  else if typeof_string rightValue then
    fe <- put frontendErrors key (VObj [("message", rightValue); ("type", VStr "custom")]) ;;
    Ok (fe, w)
  else Ok (frontendErrors, w).

Fixpoint merge_entries (es : props) (frontendErrors : value) (w : W)
  : outcome (value * W) :=
  match es with
  | [] => Ok (frontendErrors, w)
  | (key, rightValue) :: es' =>
      st <- merge_entry frontendErrors w key rightValue ;;
      merge_entries es' (fst st) (snd st)
  end.

End MergeLoop.

(** The recursion of the source is not structural ([parseRightValue] builds
    a new object), so the embedding recurses on a fuel; [merge_fuel] below
    is always enough. *)
Fixpoint mergeErrors_fuel (fuel : nat) (frontendErrors backendErrors : value)
  (onMerge : value -> W -> W) (w : W) : outcome (value * W) :=
  if negb (truthy backendErrors) then Ok (frontendErrors, w)
  else
    match fuel with
    | O => OutOfFuel
    | S fuel' =>
        st <- merge_entries
                (fun fe sub w' => mergeErrors_fuel fuel' fe sub noop w')
                (entries backendErrors) frontendErrors w ;;
        Ok (fst st, onMerge (fst st) (snd st))
    end.

Definition merge_fuel (backendErrors : value) : nat := 2 * depth backendErrors + 2.

Definition mergeErrors (frontendErrors backendErrors : value)
  (onMerge : value -> W -> W) (w : W) : outcome (value * W) :=
  mergeErrors_fuel (merge_fuel backendErrors) frontendErrors backendErrors onMerge w.

(** ** Vocabulary of the specification *)

(** The two kinds of container of the output tree. *)
Inductive container : Type :=
| ObjectContainer
| ListContainer.

Definition container_of (v : value) : option container :=
  match v with
  | VObj _ => Some ObjectContainer
  | VArr _ _ => Some ListContainer
  | _ => None
  end.

(** The own property [k] of a container. *)
Definition own (cur : value) (k : string) : option value :=
  match cur with
  | VObj ps => lookup k ps
  | VArr es ex =>
      match array_index k with
      | Some i => nth_error es (N.to_nat i)
      | None => if String.eqb k "length" then None else lookup k ex
      end
  | _ => None
  end.

(** The value found by following own properties along a path of key
    parts. *)
Fixpoint at_path (v : value) (path : list string) : option value :=
  match path with
  | [] => Some v
  | k :: path' =>
      match own v k with
      | Some child => at_path child path'
      | None => None
      end
  end.



(** A last key part that is neither bracket-suffixed nor purely numeric is
    written with a plain assignment. *)
Definition plain_last (lastKeyPart : string) : bool :=
  match strip_bracket lastKeyPart with
  | Some _ => false
  | None => negb (test_index lastKeyPart)
  end.

Fixpoint is_prefix (l path : list string) : bool :=
  match l, path with
  | [], _ => true
  | _ :: _, [] => false
  | a :: l', b :: path' => String.eqb a b && is_prefix l' path'
  end.


(** A key without dot is a single key part. *)
Fixpoint no_dot (s : string) : bool :=
  match s with
  | EmptyString => true
  | String c s' => negb (Ascii.eqb c ".") && no_dot s'
  end.


(** A value that is falsy or missing. *)
Definition vacant (o : option value) : bool :=
  match o with
  | Some x => negb (truthy x)
  | None => true
  end.

(** Outcomes that [generateFormData] can have: a value, a [TypeError], or
    a property access outside the model. *)
Definition returns_or_TypeError {A : Type} (r : outcome A) : Prop :=
  match r with
  | Ok _ | Throw TypeError | Unmodelled => True
  | _ => False
  end.

(** The two ways in which a slot is entered: the container it holds is
    reused, or the slot is vacant and receives [fresh]. *)
Inductive entered (cur : value) (k : string) (fresh : value) : value -> value -> Prop :=
| Reused : forall child,
    own cur k = Some child -> truthy child = true ->
    entered cur k fresh cur child
| Created : forall cur1,
    vacant (own cur k) = true -> put cur k fresh = Ok cur1 ->
    entered cur k fresh cur1 fresh.

(** The last key part, case by case. *)
Inductive last_step (cur : value) (lastKeyPart : string) (v : value) : value -> Prop :=
| LastBracket : forall key cur1 es ex,
    strip_bracket lastKeyPart = Some key ->
    entered cur key (VArr [] []) cur1 (VArr es ex) ->
    has_key "push" ex = false ->
    last_step cur lastKeyPart v (store_back cur1 key (VArr (es ++ [v])%list ex))
| LastIndex : forall es ex,
    strip_bracket lastKeyPart = None -> test_index lastKeyPart = true ->
    cur = VArr es ex -> has_key "push" ex = false ->
    last_step cur lastKeyPart v (VArr (es ++ [v])%list ex)
| LastPlain : forall cur',
    plain_last lastKeyPart = true ->
    put cur lastKeyPart v = Ok cur' ->
    last_step cur lastKeyPart v cur'.

(** The depth of the values held by a property list, and by a list of
    elements. *)
Fixpoint props_depth (ps : props) : nat :=
  match ps with
  | [] => O
  | (_, x) :: ps' => Nat.max (depth x) (props_depth ps')
  end.

Fixpoint elems_depth (es : list value) : nat :=
  match es with
  | [] => O
  | e :: es' => Nat.max (depth e) (elems_depth es')
  end.

(** No entry under the key ["root"]. *)
Definition rootless (es : props) : Prop :=
  forall k x, In (k, x) es -> k <> "root".

(** Fuel that lets [mergeErrors_fuel] finish on [backendErrors]. *)
Definition fuel_ok (fuel : nat) (backendErrors : value) : Prop :=
  2 * depth backendErrors + 2 <= fuel
  \/ (rootless (entries backendErrors) /\ 2 * depth backendErrors + 1 <= fuel).

(** The entries for which the loop of [mergeErrors] calls itself. *)
Definition recurses (rightValue : value) : bool :=
  typeof_object rightValue && negb (isArray rightValue)
  && negb (truthy (opt_member rightValue "message")).

(** The entries that the loop of [mergeErrors] stores as a field error. *)
Definition stored (rightValue : value) : bool :=
  negb (recurses rightValue)
  && (truthy (opt_member rightValue "message") || typeof_string rightValue).


(** The leaves of a backend tree, at any depth: the entries that the
    merge stores, found directly or below an entry on which the merge
    calls itself with what [parseRightValue] returns for it. *)
Inductive flattened_leaf : value -> string -> value -> Prop :=
| LeafHere : forall be j leaf,
    In (j, leaf) (entries be) -> stored leaf = true ->
    flattened_leaf be j leaf
| LeafBelow : forall be k rv sub j leaf,
    In (k, rv) (entries be) -> recurses rv = true ->
    parseRightValue k rv = Ok sub ->
    flattened_leaf sub j leaf ->
    flattened_leaf be j leaf.

(** [fe'] owns every key that [fe] owns. *)
Definition keeps_keys (fe fe' : value) : Prop :=
  forall j x, own fe j = Some x -> exists y, own fe' j = Some y.

(** The field error that ends up stored for a reserved sub-field of
    ["root"]: [{type: "custom", ...{type: t, ...sub}}]. *)
Definition root_node (t : string) (sub : value) : value :=
  VObj (spread [("type", VStr "custom")] (VObj (spread [("type", VStr t)] sub))).

(** An object that carries a truthy [message]. *)
Definition has_message (v : value) : bool :=
  truthy (opt_member v "message").

(** ** Vocabulary of the further properties *)

(** The path of the slot that an entry writes: its key parts when the
    last one is plain; otherwise the list it appends to, found under the
    stripped name for a bracket suffix and in the enclosing container for a
    purely numeric last part. *)
Fixpoint target_path (keyPart : string) (rest : list string) : list string :=
  match rest with
  | [] =>
      match strip_bracket keyPart with
      | Some key => [key]
      | None => if test_index keyPart then [] else [keyPart]
      end
  | next :: rest' => keyPart :: target_path next rest'
  end.

(** The last key part of an entry is plain. *)
Definition assigns (keyPart : string) (rest : list string) : bool :=
  plain_last (last (keyPart :: rest) "").

(** The elements and named properties of the list found at a path; none
    when no list is there. *)
Definition list_at (v : value) (path : list string) : list value * props :=
  match at_path v path with
  | Some (VArr es ex) => (es, ex)
  | _ => ([], [])
  end.

(** What the slot of an entry holds once the entry is written: the value
    for a plain last part, the list extended by the value otherwise. *)
Definition written (cur : value) (keyPart : string) (rest : list string)
  (v : value) : value :=
  if assigns keyPart rest then v
  else
    let '(es, ex) := list_at cur (target_path keyPart rest) in
    VArr (es ++ [v])%list ex.

(** An entry disturbs what sits at [path] when [path] is a prefix of its
    slot (the entry writes at [path] or inside the value found there) or,
    for a plain last part, its slot is a prefix of [path] (the entry
    assigns on the way from the root to [path]). *)
Definition disturbs (keyPart : string) (rest : list string) (path : list string)
  : bool :=
  is_prefix path (target_path keyPart rest)
  || (assigns keyPart rest && is_prefix (target_path keyPart rest) path).

(** The key [name.digits]. *)
Definition dotted_key (name digits : string) : string :=
  name ++ "." ++ digits.

(** [undefined] or [null]. *)
Definition nullish (v : value) : bool :=
  match v with
  | VUndefined | VNull => true
  | _ => false
  end.

(** The answer of [getValidatedFormData] for the data [data] and the
    resolver answer [result]. *)
Definition validated (result data : value) : value :=
  let errors := opt_member result "errors" in
  match entries errors with
  | [] => VObj [("errors", VUndefined); ("data", opt_member result "values");
                ("receivedValues", data)]
  | _ :: _ => VObj [("errors", errors); ("data", VUndefined);
                    ("receivedValues", data)]
  end.

(** The entries that the loop of [mergeErrors] passes over: numbers,
    booleans and [undefined]; lists without a truthy [message]; and the
    values on which the recursive call finds nothing, that is a [File],
    an empty object, and [null] under a key other than ["root"]. *)
Definition inert (key : string) (rightValue : value) : bool :=
  match rightValue with
  | VUndefined | VBool _ | VNum _ | VFile _ => true
  | VNull => negb (String.eqb key "root")
  | VArr _ _ => negb (has_message rightValue)
  | VObj [] => true
  | _ => false
  end.

(** The field error that the loop of [mergeErrors] stores for an entry. *)
Definition field_error (rightValue : value) : value :=
  if has_message rightValue then VObj (spread [("type", VStr "custom")] rightValue)
  else VObj [("message", rightValue); ("type", VStr "custom")].

(** The assignments [frontendErrors[key] = node] that a merge makes, in
    the order in which it makes them. *)
Section WriteLoop.

Variable recur : value -> outcome props.

Definition entry_writes (key : string) (rightValue : value) : outcome props :=
  if recurses rightValue then
    sub <- parseRightValue key rightValue ;;
    recur sub
  else if stored rightValue then Ok [(key, field_error rightValue)]
  else Ok [].

Fixpoint entries_writes (es : props) : outcome props :=
  match es with
  | [] => Ok []
  | (key, rightValue) :: es' =>
      here <- entry_writes key rightValue ;;
      later <- entries_writes es' ;;
      Ok (here ++ later)%list
  end.

End WriteLoop.

Fixpoint writes_fuel (fuel : nat) (backendErrors : value) : outcome props :=
  if negb (truthy backendErrors) then Ok []
  else
    match fuel with
    | O => OutOfFuel
    | S fuel' => entries_writes (writes_fuel fuel') (entries backendErrors)
    end.

Definition writes (backendErrors : value) : outcome props :=
  writes_fuel (merge_fuel backendErrors) backendErrors.

(** The assignments made one after the other. *)
Fixpoint put_all (frontendErrors : value) (ws : props) : outcome value :=
  match ws with
  | [] => Ok frontendErrors
  | (key, node) :: ws' =>
      fe <- put frontendErrors key node ;;
      put_all fe ws'
  end.

(** A ["root"] entry that holds [null] is reached by the merge. *)
Inductive null_root_reached : value -> Prop :=
| NullRootHere : forall be,
    In ("root", VNull) (entries be) -> null_root_reached be
| NullRootBelow : forall be k rv sub,
    In (k, rv) (entries be) -> recurses rv = true ->
    parseRightValue k rv = Ok sub ->
    null_root_reached sub ->
    null_root_reached be.

(** ** What the embedding covers *)

(** A name that the embedding reads and writes on every receiver: no
    member of a built-in prototype, and not [length]. *)
Definition ordinary (name : string) : bool :=
  negb (builtin name) && negb (String.eqb name "length").

(** The key parts of an entry are covered: each part but the last is
    ordinary, and so is the name of the last part (its bracket suffix
    stripped) unless the last part is purely numeric. *)
Fixpoint covered_parts (keyPart : string) (rest : list string) : bool :=
  match rest with
  | [] =>
      match strip_bracket keyPart with
      | Some key => ordinary key
      | None => test_index keyPart || ordinary keyPart
      end
  | next :: rest' => ordinary keyPart && covered_parts next rest'
  end.

(** The entry sets that the embedding covers in full: string values under
    covered keys. *)
Definition covered (formData : FormData) : Prop :=
  forall key e,
    In (key, e) formData ->
    (exists text, e = EStr text)
    /\ covered_parts (fst (split_dot key)) (snd (split_dot key)) = true.

(** A value that holds no [File], at any depth. *)
Unset Elimination Schemes.
Set Elimination Schemes.


(** * Properties *)

(** ** Strings *)


Lemma all_digits_list :
  forall d, all_digits d = true -> forallb is_digit (list_ascii_of_string d) = true.
Proof.
  induction d as [| c d IH]; cbn; [reflexivity |].
  intros H. apply andb_true_iff in H as [Hc Hd]. now rewrite Hc, IH.
Qed.


Lemma forallb_rev :
  forall (A : Type) (f : A -> bool) l, forallb f (rev l) = forallb f l.
Proof.
  intros A f l. induction l as [| a l IH]; cbn; [reflexivity |].
  rewrite forallb_app, IH. cbn. rewrite andb_true_r. apply andb_comm.
Qed.


Lemma drop_digits_all :
  forall l, forallb is_digit l = true -> drop_digits l = [].
Proof.
  induction l as [| c l IH]; cbn; [reflexivity |].
  intros H. apply andb_true_iff in H as [Hc Hl]. rewrite Hc. now apply IH.
Qed.

(** A purely numeric key part has no bracket suffix. *)
Lemma strip_bracket_numeric :
  forall s, all_digits s = true -> strip_bracket s = None.
Proof.
  intros s Hs. unfold strip_bracket.
  pose proof (all_digits_list s Hs) as Hl.
  rewrite <- forallb_rev in Hl.
  destruct (rev (list_ascii_of_string s)) as [| c r]; [reflexivity |].
  cbn in Hl. apply andb_true_iff in Hl as [Hc Hr].
  destruct (Ascii.eqb_spec c "]") as [-> | _]; [discriminate | reflexivity].
Qed.

Lemma split_dot_no_dot :
  forall s, no_dot s = true -> split_dot s = (s, []).
Proof.
  induction s as [| c s IH]; cbn; [reflexivity |].
  intros H. apply andb_true_iff in H as [Hc Hs].
  rewrite (IH Hs). apply negb_true_iff in Hc. now rewrite Hc.
Qed.

Lemma all_digits_no_dot :
  forall s, all_digits s = true -> no_dot s = true.
Proof.
  induction s as [| c s IH]; cbn; [reflexivity |].
  intros H. apply andb_true_iff in H as [Hc Hs]. rewrite (IH Hs), andb_true_r.
  destruct (Ascii.eqb_spec c ".") as [-> | _]; [discriminate | reflexivity].
Qed.


(** ** Own properties *)

Lemma lookup_replace_same :
  forall k v ps, has_key k ps = true -> lookup k (replace_prop k v ps) = Some v.
Proof.
  unfold has_key. intros k v ps. induction ps as [| [k' v'] ps IH]; cbn; [discriminate |].
  destruct (String.eqb k k') eqn:E; cbn; rewrite E; [reflexivity | exact IH].
Qed.

Lemma lookup_replace_other :
  forall j k v ps, j <> k -> lookup j (replace_prop k v ps) = lookup j ps.
Proof.
  intros j k v ps Hjk. induction ps as [| [k' v'] ps IH]; cbn; [reflexivity |].
  destruct (String.eqb_spec k k') as [<- | Hk]; cbn.
  - destruct (String.eqb_spec j k); [contradiction | reflexivity].
  - destruct (String.eqb j k'); [reflexivity | exact IH].
Qed.

Lemma lookup_insert_same :
  forall i k v ps, lookup k ps = None -> lookup k (insert_index i k v ps) = Some v.
Proof.
  intros i k v ps. induction ps as [| [k' v'] ps IH]; cbn.
  - now rewrite String.eqb_refl.
  - destruct (String.eqb k k') eqn:E; [discriminate |]. intros H.
    destruct (array_index k') as [j |]; [destruct (j <? i)%N |]; cbn;
      rewrite ?E, ?String.eqb_refl; auto.
Qed.

Lemma lookup_insert_other :
  forall i j k v ps, j <> k -> lookup j (insert_index i k v ps) = lookup j ps.
Proof.
  intros i j k v ps Hjk. apply String.eqb_neq in Hjk.
  induction ps as [| [k' v'] ps IH]; cbn.
  - now rewrite Hjk.
  - destruct (array_index k') as [n |]; [destruct (n <? i)%N |]; cbn;
      rewrite ?Hjk, ?IH; reflexivity.
Qed.

Lemma lookup_app_same :
  forall k v ps, lookup k ps = None -> lookup k (ps ++ [(k, v)])%list = Some v.
Proof.
  intros k v ps. induction ps as [| [k' v'] ps IH]; cbn.
  - now rewrite String.eqb_refl.
  - destruct (String.eqb k k'); [discriminate | exact IH].
Qed.

Lemma lookup_app_other :
  forall j k v ps, j <> k -> lookup j (ps ++ [(k, v)])%list = lookup j ps.
Proof.
  intros j k v ps Hjk. apply String.eqb_neq in Hjk.
  induction ps as [| [k' v'] ps IH]; cbn.
  - now rewrite Hjk.
  - destruct (String.eqb j k'); [reflexivity | exact IH].
Qed.

Lemma lookup_set_same :
  forall k v ps, lookup k (set_prop k v ps) = Some v.
Proof.
  intros k v ps. unfold set_prop.
  destruct (has_key k ps) eqn:H.
  - now apply lookup_replace_same.
  - unfold has_key in H. destruct (lookup k ps) eqn:L; [discriminate |].
    destruct (array_index k); [now apply lookup_insert_same | now apply lookup_app_same].
Qed.

Lemma lookup_set_other :
  forall j k v ps, j <> k -> lookup j (set_prop k v ps) = lookup j ps.
Proof.
  intros j k v ps Hjk. unfold set_prop.
  destruct (has_key k ps).
  - now apply lookup_replace_other.
  - destruct (array_index k); [now apply lookup_insert_other | now apply lookup_app_other].
Qed.

Lemma has_key_set :
  forall k v ps, has_key k (set_prop k v ps) = true.
Proof.
  intros. unfold has_key. now rewrite lookup_set_same.
Qed.





Lemma set_prop_present :
  forall k v ps, has_key k ps = true -> set_prop k v ps = replace_prop k v ps.
Proof. intros k v ps H. unfold set_prop. now rewrite H. Qed.

Lemma lookup_in :
  forall k ps x, lookup k ps = Some x -> In (k, x) ps.
Proof.
  intros k ps x. induction ps as [| [k' y] ps IH]; cbn; [discriminate |].
  destruct (String.eqb_spec k k') as [<- | _]; [intros [= ->]; now left | auto].
Qed.

(** ** Reading and writing containers *)

Lemma array_index_name :
  forall k n, array_index k = Some n -> k = index_name n.
Proof.
  unfold array_index. intros k n H.
  destruct (test_index k); [| discriminate].
  destruct (String.eqb_spec (index_name (digits_value 0 k)) k) as [E | _];
    [| discriminate].
  cbn in H. destruct (digits_value 0 k <? 4294967295)%N; [| discriminate].
  injection H as <-. now symmetry.
Qed.

(** Two names of the same array index are the same name. *)
Lemma array_index_inj :
  forall j k n, array_index j = Some n -> array_index k = Some n -> j = k.
Proof.
  intros j k n Hj Hk.
  apply array_index_name in Hj, Hk. congruence.
Qed.

Lemma nth_error_set_elem_same :
  forall i v es, nth_error (set_elem i v es) i = Some v.
Proof.
  induction i as [| i IH]; intros v [| e es]; cbn; auto.
Qed.

Lemma nth_error_set_elem_other :
  forall i n v es x,
    n <> i -> nth_error es n = Some x -> nth_error (set_elem i v es) n = Some x.
Proof.
  induction i as [| i IH]; intros [| n] v [| e es] x Hn H; cbn in *;
    try discriminate; try congruence; auto.
Qed.

Lemma nth_error_snoc :
  forall (es : list value) n x v,
    nth_error es n = Some x -> nth_error (es ++ [v])%list n = Some x.
Proof.
  intros es n x v H.
  rewrite nth_error_app1; [exact H |].
  apply nth_error_Some. congruence.
Qed.

(** A property that a container owns is what reading it yields. *)
Lemma get_own :
  forall cur k x, own cur k = Some x -> get cur k = Ok x.
Proof.
  intros [| | b | n | s | f | es ex | ps] k x; cbn; try discriminate.
  - destruct (array_index k) as [i |].
    + intros ->. reflexivity.
    + destruct (String.eqb k "length"); [discriminate |]. intros ->. reflexivity.
  - intros ->. reflexivity.
Qed.

Lemma own_put_same :
  forall cur k v cur1, put cur k v = Ok cur1 -> own cur1 k = Some v.
Proof.
  intros [| | b | n | s | f | es ex | ps] k v cur1; cbn; try discriminate.
  - destruct (array_index k) as [i |] eqn:Hi.
    + intros [= <-]. cbn. rewrite Hi. apply nth_error_set_elem_same.
    + destruct (String.eqb k "length") eqn:Hl; cbn; [discriminate |].
      destruct (builtin k); [discriminate |].
      intros [= <-]. cbn. rewrite Hi, Hl. apply lookup_set_same.
  - destruct (builtin k); [discriminate |].
    intros [= <-]. cbn. apply lookup_set_same.
Qed.

Lemma own_put_other :
  forall cur k v cur1 j x,
    put cur k v = Ok cur1 -> j <> k -> own cur j = Some x -> own cur1 j = Some x.
Proof.
  intros [| | b | n | s | f | es ex | ps] k v cur1 j x; cbn; try discriminate.
  - destruct (array_index k) as [i |] eqn:Hi.
    + intros [= <-] Hjk. cbn.
      destruct (array_index j) as [m |] eqn:Hm; [| auto].
      apply nth_error_set_elem_other.
      intros E. apply N2Nat.inj in E. subst m.
      apply Hjk. eapply array_index_inj; eauto.
    + destruct (String.eqb k "length" || builtin k); [discriminate |].
      intros [= <-] Hjk. cbn.
      destruct (array_index j); [auto |].
      destruct (String.eqb j "length"); [auto |].
      now rewrite lookup_set_other.
  - destruct (builtin k); [discriminate |].
    intros [= <-] Hjk. cbn. now rewrite lookup_set_other.
Qed.

Lemma put_container :
  forall cur k v cur1, put cur k v = Ok cur1 -> container_of cur1 = container_of cur.
Proof.
  intros [| | b | n | s | f | es ex | ps] k v cur1; cbn; try discriminate.
  - destruct (array_index k); [intros [= <-]; reflexivity |].
    destruct (String.eqb k "length" || builtin k); [discriminate |].
    intros [= <-]; reflexivity.
  - destruct (builtin k); [discriminate |]. intros [= <-]; reflexivity.
Qed.

Lemma put_ok_container :
  forall cur k v cur1, put cur k v = Ok cur1 -> container_of cur <> None.
Proof.
  intros [| | b | n | s | f | es ex | ps] k v cur1; cbn; discriminate.
Qed.

Lemma store_back_container :
  forall cur k y, container_of (store_back cur k y) = container_of cur.
Proof.
  intros [| | b | n | s | f | es ex | ps] k y; cbn; try reflexivity.
  destruct (array_index k); reflexivity.
Qed.

Lemma own_has_key :
  forall k ps x, lookup k ps = Some x -> has_key k ps = true.
Proof. unfold has_key. intros k ps x ->. reflexivity. Qed.

Lemma own_store_back_same :
  forall cur k x y, own cur k = Some x -> own (store_back cur k y) k = Some y.
Proof.
  intros [| | b | n | s | f | es ex | ps] k x y; cbn; try discriminate.
  - destruct (array_index k) as [i |] eqn:Hi; cbn; rewrite Hi.
    + intros _. apply nth_error_set_elem_same.
    + destruct (String.eqb k "length"); [discriminate |].
      intros H. apply lookup_replace_same. eapply own_has_key; eauto.
  - intros H. apply lookup_replace_same. eapply own_has_key; eauto.
Qed.

Lemma own_store_back_other :
  forall cur k y j x,
    j <> k -> own cur j = Some x -> own (store_back cur k y) j = Some x.
Proof.
  intros [| | b | n | s | f | es ex | ps] k y j x Hjk; cbn; try discriminate.
  - destruct (array_index k) as [i |] eqn:Hi; cbn.
    + destruct (array_index j) as [m |] eqn:Hm; [| auto].
      apply nth_error_set_elem_other.
      intros E. apply N2Nat.inj in E. subst m.
      apply Hjk. eapply array_index_inj; eauto.
    + destruct (array_index j); [auto |].
      destruct (String.eqb j "length"); [auto |].
      now rewrite lookup_replace_other.
  - now rewrite lookup_replace_other.
Qed.

(** [push] succeeds on lists only, and appends. *)
Lemma push_ok :
  forall cur v cur',
    push cur v = Ok cur' ->
    exists es ex, cur = VArr es ex /\ cur' = VArr (es ++ [v])%list ex.
Proof.
  intros [| | b | n | s | f | es ex | ps] v cur'; cbn; try discriminate.
  destruct (has_key "push" ex); [discriminate |].
  intros [= <-]. now exists es, ex.
Qed.

Lemma own_snoc :
  forall es ex v j x,
    own (VArr es ex) j = Some x -> own (VArr (es ++ [v])%list ex) j = Some x.
Proof.
  intros es ex v j x. cbn.
  destruct (array_index j); [apply nth_error_snoc | auto].
Qed.


Lemma own_container :
  forall cur k x, own cur k = Some x -> container_of cur <> None.
Proof.
  intros [| | b | n | s | f | es ex | ps] k x; cbn; discriminate.
Qed.


(** ** [isGet] *)

(** C4 (amended).  [isGet] compares the method with the two literals
    ["GET"] and ["get"]: it returns true exactly for these two spellings,
    and false for every other method string, mixed capitalisations such as
    ["Get"] included. *)
Theorem isGet_exactly_two_spellings :
  forall request : Request,
    isGet request = true <-> method request = "GET" \/ method request = "get".
Proof.
  intros request. unfold isGet.
  rewrite orb_true_iff, !String.eqb_eq. reflexivity.
Qed.

(** ** [validateFormData] *)

(** C7.  Whatever the data and the resolver, when the resolver answers
    [{errors, values}]: if [errors] has at least one key the result is
    [{errors, data: undefined}], and if it has no key the result is
    [{errors: undefined, data: values}]. *)
Theorem validateFormData_result :
  forall (data : value) (resolver : Resolver) (result errors values : value)
         (keys : list string),
    resolver data (VObj []) resolver_options = Ok result ->
    member result "errors" = Ok errors ->
    member result "values" = Ok values ->
    Object_keys errors = Ok keys ->
    (List.length keys >= 1 ->
       validateFormData data resolver
       = Ok (VObj [("errors", errors); ("data", VUndefined)]))
    /\ (List.length keys = 0 ->
       validateFormData data resolver
       = Ok (VObj [("errors", VUndefined); ("data", values)])).
Proof.
  intros data resolver result errors values keys Hres Herr Hval Hkeys.
  unfold validateFormData.
  rewrite Hres; cbn [bind].
  rewrite Herr; cbn [bind].
  rewrite Hval; cbn [bind].
  rewrite Hkeys; cbn [bind].
  split; intros Hlen.
  - destruct (Nat.ltb_spec 0 (List.length keys)) as [_ | Hle]; [reflexivity | lia].
  - rewrite Hlen. reflexivity.
Qed.

(** ** [createFormData] and [parseFormData] *)

Lemma FormData_get_head :
  forall key e fd, FormData_get ((key, e) :: fd) key = value_of_entry e.
Proof.
  intros key e fd. cbn. rewrite String.eqb_refl. reflexivity.
Qed.

(** [formData.get(key)] is [null], a string or a [File]. *)
Lemma FormData_get_cases :
  forall fd key,
    FormData_get fd key = VNull
    \/ (exists text, FormData_get fd key = VStr text)
    \/ (exists name, FormData_get fd key = VFile name).
Proof.
  induction fd as [| [k e] fd IH]; intros key; cbn.
  - now left.
  - destruct (String.eqb key k); [| apply IH].
    destruct e as [text | name]; cbn; [right; left | right; right]; eauto.
Qed.

(** What [parseFormData] does with the value found under the key. *)
Lemma parseFormData_falsy :
  forall request key fd,
    formData request = Ok fd -> truthy (FormData_get fd key) = false ->
    parseFormData request key = generateFormData fd.
Proof.
  intros request key fd Hfd H. unfold parseFormData.
  rewrite Hfd; cbn [bind]. now rewrite H.
Qed.

Lemma parseFormData_file :
  forall request key fd name,
    formData request = Ok fd -> FormData_get fd key = VFile name ->
    parseFormData request key = Throw (Error "Data is not a string").
Proof.
  intros request key fd name Hfd H. unfold parseFormData.
  rewrite Hfd; cbn [bind]. now rewrite H.
Qed.

Lemma parseFormData_text :
  forall request key fd text,
    formData request = Ok fd -> FormData_get fd key = VStr text -> text <> "" ->
    parseFormData request key = JSON_parse text.
Proof.
  intros request key fd text Hfd H Hne. unfold parseFormData.
  rewrite Hfd; cbn [bind]. rewrite H. cbn [truthy negb].
  destruct (String.eqb_spec text "") as [He | _]; [contradiction | reflexivity].
Qed.

(** C5 (amended).  [formData.get(key)] is [null], a string or a [File].
    [parseFormData] flattens the whole entry set exactly when that value
    is falsy, that is when no value exists under the key or when the first
    value under it is the empty string; when the first value is a [File]
    it throws ["Data is not a string"]; when it is a non-empty string it
    returns what [JSON.parse] returns for it. *)
Theorem parseFormData_cases :
  forall (request : Request) (key : string) (fd : FormData),
    formData request = Ok fd ->
    (FormData_get fd key = VNull
     \/ (exists text, FormData_get fd key = VStr text)
     \/ (exists name, FormData_get fd key = VFile name))
    /\ (FormData_get fd key = VNull \/ FormData_get fd key = VStr "" ->
       parseFormData request key = generateFormData fd)
    /\ (forall name, FormData_get fd key = VFile name ->
       parseFormData request key = Throw (Error "Data is not a string"))
    /\ (forall text, FormData_get fd key = VStr text -> text <> "" ->
       parseFormData request key = JSON_parse text).
Proof.
  intros request key fd Hfd.
  split; [apply FormData_get_cases |].
  split; [| split].
  - intros [H | H]; apply parseFormData_falsy; auto; now rewrite H.
  - intros name. now apply parseFormData_file.
  - intros text. now apply parseFormData_text.
Qed.

(** C6.  When the host's [JSON.parse] inverts [JSON.stringify] on [obj]
    (which is what makes [obj] JSON-serializable; the empty text is not
    JSON), a request whose form body is [createFormData obj key] is parsed
    back to [obj] by [parseFormData request key], whatever the key. *)
Theorem parseFormData_createFormData_roundtrip :
  forall (obj : value) (key text : string) (request : Request),
    JSON_parse "" = Throw SyntaxError ->
    JSON_stringify obj = Some text ->
    JSON_parse text = Ok obj ->
    formData request = Ok (createFormData obj key) ->
    parseFormData request key = Ok obj.
Proof.
  intros obj key text request Hempty Hprint Hparse Hbody.
  assert (Hne : text <> "").
  { intros ->. rewrite Hempty in Hparse. discriminate. }
  rewrite (parseFormData_text request key _ text Hbody); [exact Hparse | | exact Hne].
  unfold createFormData. rewrite Hprint. apply FormData_get_head.
Qed.

(** ** [generateFormData]: one entry *)

Lemma bind_ok :
  forall (A B : Type) (m : outcome A) (f : A -> outcome B) b,
    bind m f = Ok b -> exists a, m = Ok a /\ f a = Ok b.
Proof.
  intros A B [a | e | |] f b H; cbn in H; try discriminate. now exists a.
Qed.

(** Reading a container out of a value means that the value owns it. *)
Lemma get_container :
  forall cur k x c, get cur k = Ok x -> container_of x = Some c -> own cur k = Some x.
Proof.
  intros cur k x c Hget Hc.
  assert (Hinh : inherited k = Ok x -> False).
  { unfold inherited. destruct (builtin k); [discriminate |].
    intros [= <-]. discriminate. }
  destruct cur as [| | b | n | s | f | es ex | ps]; cbn in *;
    try discriminate; try (exfalso; auto; fail).
  - unfold string_get in Hget.
    destruct (array_index k) as [i |].
    + destruct (String.get (N.to_nat i) s); [| exfalso; auto].
      injection Hget as <-. discriminate.
    + destruct (String.eqb k "length"); [| exfalso; auto].
      injection Hget as <-. discriminate.
  - destruct (array_index k) as [i |].
    + destruct (nth_error es (N.to_nat i)); [congruence | exfalso; auto].
    + destruct (String.eqb k "length"); [injection Hget as <-; discriminate |].
      destruct (lookup k ex); [congruence | exfalso; auto].
  - destruct (lookup k ps); [congruence | exfalso; auto].
Qed.

(** What reading yields is falsy whenever the slot is vacant, unless the
    name is ["length"] or resolved on a prototype. *)
Lemma get_falsy_vacant :
  forall cur k x, get cur k = Ok x -> truthy x = false -> vacant (own cur k) = true.
Proof.
  intros cur k x Hget Hx.
  destruct (own cur k) as [y |] eqn:Hown; [| reflexivity].
  rewrite (get_own _ _ _ Hown) in Hget. injection Hget as <-.
  cbn. now rewrite Hx.
Qed.

Lemma enter_slot :
  forall cur k fresh held cur1 child c,
    get cur k = Ok held ->
    (if truthy held then Ok cur else put cur k fresh) = Ok cur1 ->
    get cur1 k = Ok child ->
    container_of fresh <> None ->
    container_of child = Some c ->
    entered cur k fresh cur1 child.
Proof.
  intros cur k fresh held cur1 child c Hheld Hcur1 Hchild Hfresh Hc.
  destruct (truthy held) eqn:Ht.
  - injection Hcur1 as <-.
    assert (child = held) by congruence. subst held.
    apply Reused; [eapply get_container; eauto | exact Ht].
  - pose proof (own_put_same _ _ _ _ Hcur1) as Hown.
    rewrite (get_own _ _ _ Hown) in Hchild. injection Hchild as <-.
    apply Created; [eapply get_falsy_vacant; eauto | exact Hcur1].
Qed.

Lemma entered_own :
  forall cur k fresh cur1 child,
    entered cur k fresh cur1 child -> own cur1 k = Some child.
Proof.
  intros cur k fresh cur1 child [child' H _ | cur1' _ H]; [exact H |].
  eapply own_put_same; eauto.
Qed.

Lemma entered_container :
  forall cur k fresh cur1 child,
    entered cur k fresh cur1 child ->
    container_of cur1 = container_of cur /\ container_of cur <> None.
Proof.
  intros cur k fresh cur1 child [child' H _ | cur1' _ H].
  - split; [reflexivity | eapply own_container; eauto].
  - split; [eapply put_container; eauto | eapply put_ok_container; eauto].
Qed.

Lemma entered_frame :
  forall cur k fresh cur1 child j x,
    entered cur k fresh cur1 child -> j <> k -> own cur j = Some x -> own cur1 j = Some x.
Proof.
  intros cur k fresh cur1 child j x [child' _ _ | cur1' _ H] Hjk Hj; [exact Hj |].
  eapply own_put_other; eauto.
Qed.

Lemma push_no_own_push :
  forall es ex v cur', push (VArr es ex) v = Ok cur' -> has_key "push" ex = false.
Proof.
  intros es ex v cur'. cbn. destruct (has_key "push" ex); [discriminate | reflexivity].
Qed.

Lemma assign_last_ok :
  forall cur lastKeyPart v cur',
    assign_last cur lastKeyPart v = Ok cur' -> last_step cur lastKeyPart v cur'.
Proof.
  intros cur l v cur'. unfold assign_last.
  destruct (strip_bracket l) as [key |] eqn:Hs.
  - intros H.
    apply bind_ok in H as (held & Hheld & H).
    apply bind_ok in H as (cur1 & Hcur1 & H).
    apply bind_ok in H as (arr & Harr & H).
    apply bind_ok in H as (arr' & Hpush & H).
    injection H as <-.
    destruct (push_ok _ _ _ Hpush) as (es & ex & -> & ->).
    eapply LastBracket; eauto.
    + eapply enter_slot; eauto; [discriminate | reflexivity].
    + eapply push_no_own_push; eauto.
  - destruct (test_index l) eqn:Ht.
    + intros H. destruct (push_ok _ _ _ H) as (es & ex & -> & ->).
      eapply LastIndex; eauto. eapply push_no_own_push; eauto.
    + intros H. apply LastPlain; [| exact H].
      unfold plain_last. now rewrite Hs, Ht.
Qed.

Lemma last_step_container :
  forall cur l v cur',
    last_step cur l v cur' ->
    container_of cur' = container_of cur /\ container_of cur <> None.
Proof.
  intros cur l v cur' [key cur1 es ex _ He _ | es ex _ _ -> _ | cur1 _ Hput].
  - rewrite store_back_container. eapply entered_container; eauto.
  - split; [reflexivity | discriminate].
  - split; [eapply put_container; eauto | eapply put_ok_container; eauto].
Qed.

(** An entry is written below containers only, and leaves the kind of the
    container it starts from as it is. *)
Lemma walk_container :
  forall rest cur keyPart v cur',
    walk cur keyPart rest v = Ok cur' ->
    container_of cur' = container_of cur /\ container_of cur <> None.
Proof.
  induction rest as [| next rest IH]; intros cur k v cur' H; cbn in H.
  - apply assign_last_ok in H. eapply last_step_container; eauto.
  - apply bind_ok in H as (held & Hheld & H).
    apply bind_ok in H as (cur1 & Hcur1 & H).
    apply bind_ok in H as (child & Hchild & H).
    apply bind_ok in H as (child' & Hwalk & H).
    injection H as <-.
    destruct (IH _ _ _ _ Hwalk) as [_ Hc].
    destruct (container_of child) as [c |] eqn:Ec; [| congruence].
    rewrite store_back_container.
    eapply entered_container.
    eapply enter_slot; eauto.
    destruct (test_index next); discriminate.
Qed.

(** The inner loop, one key part at a time. *)
Lemma walk_step :
  forall cur keyPart next rest v cur',
    walk cur keyPart (next :: rest) v = Ok cur' ->
    exists cur1 child child',
      entered cur keyPart (if test_index next then VArr [] [] else VObj []) cur1 child
      /\ walk child next rest v = Ok child'
      /\ cur' = store_back cur1 keyPart child'.
Proof.
  intros cur k next rest v cur' H. cbn in H.
  apply bind_ok in H as (held & Hheld & H).
  apply bind_ok in H as (cur1 & Hcur1 & H).
  apply bind_ok in H as (child & Hchild & H).
  apply bind_ok in H as (child' & Hwalk & H).
  injection H as <-.
  exists cur1, child, child'. repeat split; auto.
  destruct (walk_container _ _ _ _ _ Hwalk) as [_ Hc].
  destruct (container_of child) as [c |] eqn:Ec; [| congruence].
  eapply enter_slot; eauto.
  destruct (test_index next); discriminate.
Qed.

(** ** [generateFormData]: containers are reused *)










Lemma generate_from_app :
  forall fd1 fd2 out,
    generate_from out (fd1 ++ fd2)%list
    = (out1 <- generate_from out fd1 ;; generate_from out1 fd2).
Proof.
  induction fd1 as [| [key e] fd1 IH]; intros fd2 out; cbn; [reflexivity |].
  destruct (split_dot key) as [k rest].
  destruct (walk out k rest (value_of_entry e)); cbn; auto.
Qed.


(** ** [generateFormData]: what a run can end in *)




Lemma put_benign : forall cur k v, returns_or_TypeError (put cur k v).
Proof.
  intros [| | b | n | s | f | es ex | ps] k v; cbn; auto.
  - destruct (array_index k); cbn; auto.
    destruct (String.eqb k "length" || builtin k); exact I.
  - destruct (builtin k); exact I.
Qed.









Lemma plain_last_not_index :
  forall l, plain_last l = true -> strip_bracket l = None /\ array_index l = None.
Proof.
  unfold plain_last, array_index. intros l.
  destruct (strip_bracket l); [discriminate |].
  destruct (test_index l); [discriminate | auto].
Qed.

(** ** [generateFormData]: the runs that the embedding covers *)




















(** ** [generateFormData]: the kind of a container *)

Lemma covered_app :
  forall fd1 fd2, covered (fd1 ++ fd2)%list -> covered fd1 /\ covered fd2.
Proof.
  intros fd1 fd2 H. split; intros key e Hin; apply H; apply in_or_app; auto.
Qed.


(** ** [generateFormData]: bracket-suffixed keys *)






Lemma set_prop_nil :
  forall k v, set_prop k v [] = [(k, v)].
Proof.
  intros k v. unfold set_prop. cbn. destruct (array_index k); reflexivity.
Qed.



(** ** [mergeErrors]: the fuel is enough *)

Lemma depth_object : forall ps, depth (VObj ps) = S (props_depth ps).
Proof. reflexivity. Qed.

Lemma depth_array :
  forall es ex, depth (VArr es ex) = S (Nat.max (elems_depth es) (props_depth ex)).
Proof. reflexivity. Qed.

Lemma in_props_depth :
  forall k x ps, In (k, x) ps -> depth x <= props_depth ps.
Proof.
  intros k x ps. induction ps as [| [k' y] ps IH]; cbn; [contradiction |].
  intros [[= -> ->] | H]; [lia | specialize (IH H); lia].
Qed.

Lemma props_depth_app :
  forall ps qs, props_depth (ps ++ qs)%list = Nat.max (props_depth ps) (props_depth qs).
Proof.
  induction ps as [| [k x] ps IH]; intros qs; cbn; [reflexivity |].
  rewrite IH. lia.
Qed.

Lemma props_depth_indexed :
  forall es i, props_depth (indexed i es) = elems_depth es.
Proof.
  induction es as [| e es IH]; intros i; cbn; [reflexivity | now rewrite IH].
Qed.

Lemma elems_depth_chars : forall s, elems_depth (chars s) = 0.
Proof. induction s as [| c s IH]; cbn; auto. Qed.

(** The entries of a value are less deep than the value. *)
Lemma props_depth_entries :
  forall v, props_depth (entries v) = Nat.pred (depth v).
Proof.
  intros [| | b | n | s | f | es ex | ps]; cbn [entries]; try reflexivity.
  - rewrite props_depth_indexed. apply elems_depth_chars.
  - rewrite props_depth_app, props_depth_indexed. reflexivity.
Qed.

Lemma entries_depth :
  forall be k rv,
    In (k, rv) (entries be) -> typeof_object rv = true -> depth rv < depth be.
Proof.
  intros be k rv Hin Hobj.
  pose proof (in_props_depth _ _ _ Hin) as Hle.
  rewrite props_depth_entries in Hle.
  destruct be as [| | b | n | s | f | es ex | ps]; cbn [entries] in Hin;
    try contradiction.
  - exfalso. clear Hle. revert Hin. generalize 0%nat.
    induction s as [| c s IH]; cbn; intros i; [auto |].
    intros [[= _ <-] | H]; [discriminate | eauto].
  - rewrite depth_array in *. cbn in Hle. lia.
  - rewrite depth_object in *. cbn in Hle. lia.
Qed.

Lemma props_depth_replace :
  forall k v ps, props_depth (replace_prop k v ps) <= Nat.max (depth v) (props_depth ps).
Proof.
  intros k v ps. induction ps as [| [k' x] ps IH]; cbn; [lia |].
  destruct (String.eqb k k'); cbn; lia.
Qed.

Lemma props_depth_insert :
  forall i k v ps, props_depth (insert_index i k v ps) <= Nat.max (depth v) (props_depth ps).
Proof.
  intros i k v ps. induction ps as [| [k' x] ps IH]; cbn; [lia |].
  destruct (array_index k') as [j |]; [destruct (j <? i)%N |]; cbn; lia.
Qed.

Lemma props_depth_set :
  forall k v ps, props_depth (set_prop k v ps) <= Nat.max (depth v) (props_depth ps).
Proof.
  intros k v ps. unfold set_prop.
  destruct (has_key k ps); [apply props_depth_replace |].
  destruct (array_index k); [apply props_depth_insert |].
  rewrite props_depth_app. cbn. lia.
Qed.

Lemma props_depth_spread :
  forall v init,
    props_depth (spread init v) <= Nat.max (props_depth init) (Nat.pred (depth v)).
Proof.
  intros v init. unfold spread. rewrite <- props_depth_entries.
  generalize (entries v) as es. intros es. revert init.
  induction es as [| [k x] es IH]; intros init; cbn [fold_left fst snd].
  - cbn. lia.
  - specialize (IH (set_prop k x init)).
    pose proof (props_depth_set k x init). cbn [props_depth]. lia.
Qed.

Lemma opt_member_depth :
  forall v name, depth (opt_member v name) <= Nat.pred (depth v).
Proof.
  intros [| | b | n | s | f | es ex | ps] name; cbn [opt_member]; try (cbn; lia).
  - destruct (lookup name ex) as [x |] eqn:E; [| cbn; lia].
    apply lookup_in, in_props_depth in E. rewrite depth_array. cbn. lia.
  - destruct (lookup name ps) as [x |] eqn:E; [| cbn; lia].
    apply lookup_in, in_props_depth in E. rewrite depth_object. cbn. lia.
Qed.

Lemma opt_member_truthy_depth :
  forall v name, truthy (opt_member v name) = true -> 1 <= depth v.
Proof.
  intros [| | b | n | s | f | es ex | ps] name; cbn; try discriminate; lia.
Qed.

(** The object that [parseRightValue] builds for a reserved sub-field. *)
Lemma rewritten_depth :
  forall key t rv name,
    truthy (opt_member rv name) = true ->
    depth (VObj [(key, VObj (spread [("type", VStr t)] (opt_member rv name)))])
    <= depth rv + 1.
Proof.
  intros key t rv name Ht.
  pose proof (opt_member_truthy_depth _ _ Ht) as H1.
  pose proof (opt_member_depth rv name) as H2.
  pose proof (props_depth_spread (opt_member rv name) [("type", VStr t)]) as H3.
  rewrite depth_object. cbn [props_depth]. rewrite depth_object.
  cbn [props_depth depth] in H3. lia.
Qed.

Lemma member_ok :
  forall v name x, member v name = Ok x -> x = opt_member v name.
Proof.
  intros [| | b | n | s | f | es ex | ps] name x; cbn; congruence.
Qed.

(** What [parseRightValue] returns: its argument, or a one-entry object
    that has no ["root"] key and is hardly deeper. *)
Lemma parseRightValue_ok :
  forall key rv sub,
    parseRightValue key rv = Ok sub ->
    sub = rv
    \/ (rootless (entries sub) /\ depth sub <= depth rv + 1).
Proof.
  intros key rv sub. unfold parseRightValue.
  destruct (String.eqb key "root"); [| intros [= <-]; now left].
  intros H.
  apply bind_ok in H as (se & Hse & H).
  apply bind_ok in H as (rnd & Hrnd & H).
  apply member_ok in Hse, Hrnd. subst se rnd.
  injection H as <-.
  destruct (truthy (opt_member rv "random")) eqn:Hr.
  - right. split; [| now apply rewritten_depth].
    intros k x [[= <- _] | []]. discriminate.
  - destruct (truthy (opt_member rv "serverError")) eqn:Hs; [| now left].
    right. split; [| now apply rewritten_depth].
    intros k x [[= <- _] | []]. discriminate.
Qed.

Lemma parseRightValue_not_root :
  forall key rv, key <> "root" -> parseRightValue key rv = Ok rv.
Proof.
  intros key rv H. unfold parseRightValue.
  apply String.eqb_neq in H. now rewrite H.
Qed.

Section MergeEntries.

Variables recur1 recur2 : value -> value -> W -> outcome (value * W).

(** The loop depends on the recursive call only through the calls it
    makes. *)
Lemma merge_entries_ext :
  forall es fe w,
    (forall k rv fe' w', In (k, rv) es ->
       merge_entry recur1 fe' w' k rv = merge_entry recur2 fe' w' k rv) ->
    merge_entries recur1 es fe w = merge_entries recur2 es fe w.
Proof.
  induction es as [| [k rv] es IH]; intros fe w H; cbn; [reflexivity |].
  rewrite (H k rv fe w (or_introl eq_refl)).
  destruct (merge_entry recur2 fe w k rv) as [[fe1 w1] | e | |]; cbn; auto.
  apply IH. intros k' rv' fe' w' Hin. apply H. now right.
Qed.

End MergeEntries.

Lemma merge_entries_fueled :
  forall recur es fe w,
    (forall k rv fe' w', In (k, rv) es -> merge_entry recur fe' w' k rv <> OutOfFuel) ->
    merge_entries recur es fe w <> OutOfFuel.
Proof.
  intros recur. induction es as [| [k rv] es IH]; intros fe w H; cbn; [discriminate |].
  pose proof (H k rv fe w (or_introl eq_refl)) as Hk.
  destruct (merge_entry recur fe w k rv) as [[fe1 w1] | e | |]; cbn;
    try discriminate; [| contradiction].
  apply IH. intros k' rv' fe' w' Hin. apply H. now right.
Qed.

Lemma put_fueled :
  forall cur k v, put cur k v <> OutOfFuel.
Proof.
  intros cur k v. pose proof (put_benign cur k v) as H.
  destruct (put cur k v); cbn in H; [discriminate .. | contradiction].
Qed.

(** One entry of the loop: the recursive call, if any, is made on a value
    that [parseRightValue] returned for an entry of type object. *)
Lemma merge_entry_fueled :
  forall recur fe w k rv,
    (forall sub, typeof_object rv = true -> parseRightValue k rv = Ok sub ->
                 recur fe sub w <> OutOfFuel) ->
    merge_entry recur fe w k rv <> OutOfFuel.
Proof.
  intros recur fe w k rv H. unfold merge_entry.
  destruct (typeof_object rv) eqn:Hobj; cbn [andb].
  - destruct (negb (isArray rv) && negb (truthy (opt_member rv "message"))).
    + destruct (parseRightValue k rv) as [sub | e | |] eqn:Hp; cbn; try discriminate.
      * now apply H.
      * unfold parseRightValue in Hp.
        destruct (String.eqb k "root"); [| discriminate].
        destruct rv; discriminate.
    + destruct (truthy (opt_member rv "message")).
      * pose proof (put_fueled fe k (VObj (spread [("type", VStr "custom")] rv))).
        destruct (put fe k _); cbn; congruence.
      * destruct (typeof_string rv); [| discriminate].
        pose proof (put_fueled fe k (VObj [("message", rv); ("type", VStr "custom")])).
        destruct (put fe k _); cbn; congruence.
  - destruct (truthy (opt_member rv "message")).
    + pose proof (put_fueled fe k (VObj (spread [("type", VStr "custom")] rv))).
      destruct (put fe k _); cbn; congruence.
    + destruct (typeof_string rv); [| discriminate].
      pose proof (put_fueled fe k (VObj [("message", rv); ("type", VStr "custom")])).
      destruct (put fe k _); cbn; congruence.
Qed.

Lemma mergeErrors_fuel_enough :
  forall fuel be fe onMerge w,
    fuel_ok fuel be -> mergeErrors_fuel fuel fe be onMerge w <> OutOfFuel.
Proof.
  induction fuel as [| fuel IH]; intros be fe onMerge w Hok.
  - cbn. destruct (truthy be); cbn; [| discriminate].
    destruct Hok as [H | [_ H]]; lia.
  - cbn. destruct (truthy be); cbn; [| discriminate].
    assert (Hloop :
      merge_entries (fun fe' sub w' => mergeErrors_fuel fuel fe' sub noop w')
        (entries be) fe w <> OutOfFuel).
    { apply merge_entries_fueled. intros k rv fe' w' Hin.
      apply merge_entry_fueled. intros sub Hobj Hp.
      apply IH.
      pose proof (entries_depth _ _ _ Hin Hobj) as Hd.
      destruct (parseRightValue_ok _ _ _ Hp) as [-> | [Hroot Hsub]].
      - left. destruct Hok as [H | [_ H]]; lia.
      - right. split; [exact Hroot |].
        destruct Hok as [H | [Hno H]]; [lia |].
        destruct (String.eqb_spec k "root") as [-> | Hk].
        + now apply Hno in Hin.
        + rewrite (parseRightValue_not_root _ _ Hk) in Hp. injection Hp as <-. lia. }
    destruct (merge_entries _ (entries be) fe w) as [[fe1 w1] | e | |]; cbn;
      congruence.
Qed.

(** ** [mergeErrors]: the result does not depend on the fuel *)

Lemma merge_entry_ext :
  forall recur1 recur2 fe w k rv,
    (forall sub, recurses rv = true -> parseRightValue k rv = Ok sub ->
                 recur1 fe sub w = recur2 fe sub w) ->
    merge_entry recur1 fe w k rv = merge_entry recur2 fe w k rv.
Proof.
  intros recur1 recur2 fe w k rv H. unfold merge_entry. fold (recurses rv).
  destruct (recurses rv); [| reflexivity].
  destruct (parseRightValue k rv) as [sub | e | |]; cbn; auto.
Qed.

Lemma merge_entries_mono :
  forall recur1 recur2 : value -> value -> W -> outcome (value * W),
    (forall fe sub w, recur1 fe sub w <> OutOfFuel ->
                      recur2 fe sub w = recur1 fe sub w) ->
    forall es fe w,
      merge_entries recur1 es fe w <> OutOfFuel ->
      merge_entries recur2 es fe w = merge_entries recur1 es fe w.
Proof.
  intros recur1 recur2 Hrec.
  assert (Hentry : forall fe w k rv,
             merge_entry recur1 fe w k rv <> OutOfFuel ->
             merge_entry recur2 fe w k rv = merge_entry recur1 fe w k rv).
  { intros fe w k rv. unfold merge_entry. fold (recurses rv).
    destruct (recurses rv); [| reflexivity].
    destruct (parseRightValue k rv) as [sub | e | |]; cbn; auto. }
  induction es as [| [k rv] es IH]; intros fe w H; cbn in *; [reflexivity |].
  destruct (merge_entry recur1 fe w k rv) as [[fe1 w1] | e | |] eqn:E; cbn in *;
    try contradiction;
    rewrite (Hentry fe w k rv) by (rewrite E; discriminate);
    rewrite E; cbn; auto.
Qed.

Lemma mergeErrors_fuel_mono :
  forall n m fe be onMerge w,
    n <= m ->
    mergeErrors_fuel n fe be onMerge w <> OutOfFuel ->
    mergeErrors_fuel m fe be onMerge w = mergeErrors_fuel n fe be onMerge w.
Proof.
  induction n as [| n IH]; intros m fe be onMerge w Hle H.
  - destruct m; cbn in *; destruct (truthy be); cbn in *; congruence.
  - destruct m as [| m]; [lia |].
    cbn in *. destruct (truthy be); cbn in *; [| reflexivity].
    rewrite (merge_entries_mono
               (fun fe' sub w' => mergeErrors_fuel n fe' sub noop w')
               (fun fe' sub w' => mergeErrors_fuel m fe' sub noop w')).
    + reflexivity.
    + intros fe' sub w' Hsub. apply IH; [lia | exact Hsub].
    + intros E. rewrite E in H. now apply H.
Qed.

(** Any fuel above [merge_fuel] gives the result of [mergeErrors]. *)
Lemma mergeErrors_fuel_stable :
  forall m fe be onMerge w,
    merge_fuel be <= m ->
    mergeErrors_fuel m fe be onMerge w = mergeErrors fe be onMerge w.
Proof.
  intros m fe be onMerge w H. unfold mergeErrors.
  apply mergeErrors_fuel_mono; [exact H |].
  apply mergeErrors_fuel_enough. left. unfold merge_fuel. lia.
Qed.

Lemma mergeErrors_terminates :
  forall fe be onMerge w, mergeErrors fe be onMerge w <> OutOfFuel.
Proof.
  intros. unfold mergeErrors. apply mergeErrors_fuel_enough.
  left. unfold merge_fuel. lia.
Qed.

Lemma parseRightValue_depth :
  forall be k rv sub,
    In (k, rv) (entries be) -> recurses rv = true ->
    parseRightValue k rv = Ok sub -> depth sub <= depth be.
Proof.
  intros be k rv sub Hin Hrec Hp.
  unfold recurses in Hrec. apply andb_true_iff in Hrec as [Hrec _].
  apply andb_true_iff in Hrec as [Hobj _].
  pose proof (entries_depth _ _ _ Hin Hobj).
  destruct (parseRightValue_ok _ _ _ Hp) as [-> | [_ Hd]]; lia.
Qed.

(** The recursion of the source, without fuel. *)
Lemma mergeErrors_unfold :
  forall fe be onMerge w,
    mergeErrors fe be onMerge w
    = if negb (truthy be) then Ok (fe, w)
      else
        st <- merge_entries (fun fe' sub w' => mergeErrors fe' sub noop w')
                (entries be) fe w ;;
        Ok (fst st, onMerge (fst st) (snd st)).
Proof.
  intros fe be onMerge w.
  rewrite <- (mergeErrors_fuel_stable (S (merge_fuel be)) fe be onMerge w)
    by lia.
  cbn [mergeErrors_fuel]. destruct (negb (truthy be)); [reflexivity |].
  f_equal. apply merge_entries_ext.
  intros k rv fe' w' Hin. apply merge_entry_ext. intros sub Hrec Hp.
  apply mergeErrors_fuel_stable.
  pose proof (parseRightValue_depth _ _ _ _ Hin Hrec Hp).
  unfold merge_fuel. lia.
Qed.

(** ** [mergeErrors]: the callback *)











(** ** [mergeErrors]: nested entries are merged at the top level *)

Lemma keeps_keys_refl : forall fe, keeps_keys fe fe.
Proof. intros fe j x H. eauto. Qed.

Lemma keeps_keys_trans :
  forall a b c, keeps_keys a b -> keeps_keys b c -> keeps_keys a c.
Proof.
  intros a b c Hab Hbc j x H. destruct (Hab _ _ H) as (y & Hy). eauto.
Qed.

Lemma put_keeps_keys :
  forall cur k v cur1, put cur k v = Ok cur1 -> keeps_keys cur cur1.
Proof.
  intros cur k v cur1 Hput j x Hj.
  destruct (String.eqb_spec j k) as [-> | Hjk].
  - exists v. eapply own_put_same; eauto.
  - exists x. eapply own_put_other; eauto.
Qed.

Lemma merge_entry_keeps_keys :
  forall recur fe w k rv st,
    (forall fe0 sub w0 st0, recur fe0 sub w0 = Ok st0 -> keeps_keys fe0 (fst st0)) ->
    merge_entry recur fe w k rv = Ok st -> keeps_keys fe (fst st).
Proof.
  intros recur fe w k rv st Hrec. unfold merge_entry. fold (recurses rv).
  destruct (recurses rv).
  - intros H. apply bind_ok in H as (sub & _ & H). eauto.
  - destruct (truthy (opt_member rv "message")).
    + intros H. apply bind_ok in H as (fe1 & Hput & H). injection H as <-.
      eapply put_keeps_keys; eauto.
    + destruct (typeof_string rv).
      * intros H. apply bind_ok in H as (fe1 & Hput & H). injection H as <-.
        eapply put_keeps_keys; eauto.
      * intros [= <-]. apply keeps_keys_refl.
Qed.

Lemma merge_entries_keeps_keys :
  forall recur,
    (forall fe0 sub w0 st0, recur fe0 sub w0 = Ok st0 -> keeps_keys fe0 (fst st0)) ->
    forall es fe w st,
      merge_entries recur es fe w = Ok st -> keeps_keys fe (fst st).
Proof.
  intros recur Hrec. induction es as [| [k rv] es IH]; intros fe w st H; cbn in H.
  - injection H as <-. apply keeps_keys_refl.
  - apply bind_ok in H as (st1 & Hentry & H).
    eapply keeps_keys_trans; [eapply merge_entry_keeps_keys; eauto | eauto].
Qed.

Lemma mergeErrors_fuel_keeps_keys :
  forall n fe be onMerge w st,
    mergeErrors_fuel n fe be onMerge w = Ok st -> keeps_keys fe (fst st).
Proof.
  induction n as [| n IH]; intros fe be onMerge w st H; cbn in H;
    destruct (truthy be); cbn in H; try discriminate;
    try (injection H as <-; apply keeps_keys_refl).
  apply bind_ok in H as (st1 & Hloop & H). injection H as <-. cbn [fst].
  eapply merge_entries_keeps_keys; [| eauto].
  intros fe0 sub w0 st0. apply IH.
Qed.

(** A merge never removes a key of the frontend tree. *)
Lemma mergeErrors_keeps_keys :
  forall fe be onMerge w st,
    mergeErrors fe be onMerge w = Ok st -> keeps_keys fe (fst st).
Proof. intros until st. apply mergeErrors_fuel_keeps_keys. Qed.

(** An entry that is stored leaves its key in the tree. *)
Lemma merge_entry_stored :
  forall recur fe w k rv st,
    stored rv = true -> merge_entry recur fe w k rv = Ok st ->
    exists node, own (fst st) k = Some node.
Proof.
  intros recur fe w k rv st. unfold stored, merge_entry. fold (recurses rv).
  destruct (recurses rv); [discriminate |]. cbn [negb andb].
  destruct (truthy (opt_member rv "message")).
  - intros _ H. apply bind_ok in H as (fe1 & Hput & H). injection H as <-.
    eexists. eapply own_put_same; eauto.
  - destruct (typeof_string rv); [| discriminate].
    intros _ H. apply bind_ok in H as (fe1 & Hput & H). injection H as <-.
    eexists. eapply own_put_same; eauto.
Qed.

(** Every entry of a loop that completes has been processed, in a tree
    whose keys are kept until the end. *)
Lemma merge_entries_in :
  forall recur,
    (forall fe0 sub w0 st0, recur fe0 sub w0 = Ok st0 -> keeps_keys fe0 (fst st0)) ->
    forall es fe w st k rv,
      merge_entries recur es fe w = Ok st -> In (k, rv) es ->
      exists fe0 w0 st0,
        merge_entry recur fe0 w0 k rv = Ok st0 /\ keeps_keys (fst st0) (fst st).
Proof.
  intros recur Hrec. induction es as [| [k' rv'] es IH]; intros fe w st k rv H Hin;
    [contradiction |].
  cbn in H. apply bind_ok in H as (st1 & Hentry & H).
  destruct Hin as [[= -> ->] | Hin].
  - exists fe, w, st1. split; [exact Hentry |].
    eapply merge_entries_keeps_keys; eauto.
  - eapply IH; eauto.
Qed.

Lemma entries_truthy :
  forall be k rv, In (k, rv) (entries be) -> truthy be = true.
Proof.
  intros [| | b | n | s | f | es ex | ps] k rv; cbn; try contradiction; auto.
  destruct s; [contradiction | reflexivity].
Qed.

Lemma mergeErrors_loop :
  forall fe be onMerge w st,
    truthy be = true ->
    mergeErrors fe be onMerge w = Ok st ->
    exists st1,
      merge_entries (fun fe' sub w' => mergeErrors fe' sub noop w')
        (entries be) fe w = Ok st1
      /\ fst st = fst st1.
Proof.
  intros fe be onMerge w st Ht H.
  rewrite mergeErrors_unfold, Ht in H. cbn [negb] in H.
  apply bind_ok in H as (st1 & Hloop & H). injection H as <-. eauto.
Qed.



(** The key of every leaf of the backend tree, at any depth, is a key of
    the tree that the merge returns. *)
Lemma mergeErrors_leaf_keys :
  forall be j leaf,
    flattened_leaf be j leaf ->
    forall fe onMerge w st,
      mergeErrors fe be onMerge w = Ok st ->
      exists node, own (fst st) j = Some node.
Proof.
  assert (Hkeep : forall fe0 sub0 w0 st0,
             mergeErrors fe0 sub0 noop w0 = Ok st0 -> keeps_keys fe0 (fst st0)).
  { intros fe0 sub0 w0 st0. apply mergeErrors_keeps_keys. }
  induction 1 as [be j leaf Hin Hstored | be k rv sub j leaf Hin Hrec Hsub _ IH];
    intros fe onMerge w st Hrun;
    (apply mergeErrors_loop in Hrun as (st1 & Hloop & Hfst);
       [| eapply entries_truthy; eauto]);
    rewrite Hfst;
    destruct (merge_entries_in _ Hkeep _ _ _ _ _ _ Hloop Hin)
      as (fe0 & w0 & st0 & Hentry & Hk0).
  - destruct (merge_entry_stored _ _ _ _ _ _ Hstored Hentry) as (node & Hnode).
    exact (Hk0 _ _ Hnode).
  - unfold merge_entry in Hentry. fold (recurses rv) in Hentry.
    rewrite Hrec, Hsub in Hentry. cbn [bind] in Hentry.
    destruct (IH _ _ _ _ Hentry) as (node & Hnode).
    exact (Hk0 _ _ Hnode).
Qed.

(** ** [mergeErrors]: the entry under ["root"] *)

Lemma fold_set_lookup :
  forall es init j,
    NoDup (map fst es) ->
    lookup j (fold_left (fun acc kv => set_prop (fst kv) (snd kv) acc) es init)
    = match lookup j es with
      | Some x => Some x
      | None => lookup j init
      end.
Proof.
  induction es as [| [k x] es IH]; intros init j Hnd; cbn [fold_left fst snd lookup].
  - reflexivity.
  - inversion Hnd as [| ? ? Hk Hnd']; subst. rewrite (IH _ _ Hnd').
    destruct (String.eqb_spec j k) as [-> | Hjk].
    + assert (Hnone : lookup k es = None).
      { destruct (lookup k es) as [y |] eqn:E; [| reflexivity].
        exfalso. apply Hk. apply lookup_in in E.
        change k with (fst (k, y)). now apply in_map. }
      rewrite Hnone. apply lookup_set_same.
    + destruct (lookup j es); [reflexivity | now apply lookup_set_other].
Qed.

(** The properties of [{...init, ...{ps}}]: those of [ps], then those of
    the literal. *)
Lemma lookup_spread :
  forall init ps j,
    NoDup (map fst ps) ->
    lookup j (spread init (VObj ps))
    = match lookup j ps with
      | Some x => Some x
      | None => lookup j init
      end.
Proof. intros init ps j. apply fold_set_lookup. Qed.

Lemma has_key_in :
  forall k ps, has_key k ps = true <-> In k (map fst ps).
Proof.
  intros k ps. unfold has_key. induction ps as [| [k' x] ps IH]; cbn.
  - split; [discriminate | contradiction].
  - destruct (String.eqb_spec k k') as [-> | Hk].
    + split; auto.
    + rewrite IH. split; [auto | intros [E | H]; congruence].
Qed.

Lemma map_fst_replace :
  forall k v ps, map fst (replace_prop k v ps) = map fst ps.
Proof.
  intros k v ps. induction ps as [| [k' x] ps IH]; cbn; [reflexivity |].
  destruct (String.eqb k k'); cbn; congruence.
Qed.

Lemma in_insert_index :
  forall i k v ps j, In j (map fst (insert_index i k v ps)) -> j = k \/ In j (map fst ps).
Proof.
  intros i k v ps j. induction ps as [| [k' x] ps IH]; cbn.
  - intros [H | []]. now left.
  - destruct (array_index k') as [n |]; [destruct (n <? i)%N |]; cbn.
    + intros [H | H]; [right; now left |].
      destruct (IH H) as [E | Hin]; [now left | right; now right].
    + intros [H | [H | H]]; [now left | right; now left | right; now right].
    + intros [H | [H | H]]; [now left | right; now left | right; now right].
Qed.

Lemma NoDup_insert_index :
  forall i k v ps,
    ~ In k (map fst ps) -> NoDup (map fst ps) ->
    NoDup (map fst (insert_index i k v ps)).
Proof.
  intros i k v ps. induction ps as [| [k' x] ps IH]; cbn; intros Hk Hnd.
  - constructor; [auto | constructor].
  - inversion Hnd as [| ? ? Hk' Hnd']; subst.
    destruct (array_index k') as [n |]; [destruct (n <? i)%N |]; cbn.
    + constructor.
      * intros Hin. apply in_insert_index in Hin as [E | Hin]; [| contradiction].
        apply Hk. now left.
      * apply IH; [| exact Hnd']. intros Hin. apply Hk. now right.
    + constructor; [exact Hk | exact Hnd].
    + constructor; [exact Hk | exact Hnd].
Qed.

(** Defining a property keeps the keys distinct. *)
Lemma NoDup_set_prop :
  forall k v ps, NoDup (map fst ps) -> NoDup (map fst (set_prop k v ps)).
Proof.
  intros k v ps Hnd. unfold set_prop.
  destruct (has_key k ps) eqn:Hk.
  - now rewrite map_fst_replace.
  - assert (Hnot : ~ In k (map fst ps)).
    { rewrite <- has_key_in. congruence. }
    destruct (array_index k).
    + now apply NoDup_insert_index.
    + rewrite map_app. cbn.
      apply NoDup_app; [exact Hnd | constructor; [auto | constructor] |].
      intros a Ha [<- | []]. contradiction.
Qed.

Lemma NoDup_spread :
  forall v init, NoDup (map fst init) -> NoDup (map fst (spread init v)).
Proof.
  intros v init. unfold spread. generalize (entries v) as es. intros es. revert init.
  induction es as [| [k x] es IH]; intros init H; cbn [fold_left fst snd]; auto.
  apply IH. now apply NoDup_set_prop.
Qed.

(** What the stored node holds: the properties of the sub-field, and the
    type [t] when the sub-field has none. *)
Lemma root_node_lookup :
  forall t s,
    NoDup (map fst s) ->
    exists node,
      root_node t (VObj s) = VObj node
      /\ forall j,
           lookup j node
           = match lookup j s with
             | Some x => Some x
             | None => if String.eqb j "type" then Some (VStr t) else None
             end.
Proof.
  intros t s Hnd. unfold root_node. eexists. split; [reflexivity |].
  intros j. rewrite lookup_spread.
  - rewrite lookup_spread by exact Hnd. cbn [lookup].
    destruct (lookup j s); [reflexivity |].
    destruct (String.eqb j "type"); reflexivity.
  - apply NoDup_spread. cbn. constructor; [auto | constructor].
Qed.

Lemma has_message_spread :
  forall t s,
    NoDup (map fst s) ->
    has_message (VObj (spread [("type", VStr t)] (VObj s))) = has_message (VObj s).
Proof.
  intros t s Hnd. unfold has_message. cbn [opt_member].
  rewrite lookup_spread by exact Hnd. cbn [lookup].
  destruct (lookup "message" s); reflexivity.
Qed.

(** The merge of a one-entry object that holds a field error. *)
Lemma mergeErrors_single_node :
  forall fe key node w,
    has_message (VObj node) = true ->
    mergeErrors fe (VObj [(key, VObj node)]) noop w
    = (fe1 <- put fe key (VObj (spread [("type", VStr "custom")] (VObj node))) ;;
       Ok (fe1, w)).
Proof.
  intros fe key node w Hm. rewrite mergeErrors_unfold. cbn [truthy negb entries].
  cbn [merge_entries]. unfold merge_entry.
  unfold has_message in Hm. rewrite Hm. cbn [typeof_object isArray negb andb].
  destruct (put fe key _); reflexivity.
Qed.

(** The entry ["root"] whose reserved sub-field [name] is rewritten. *)
Lemma merge_root_entry :
  forall fe r rest onMerge w name t s,
    has_message (VObj r) = false ->
    parseRightValue "root" (VObj r)
    = Ok (VObj [("root." ++ name, VObj (spread [("type", VStr t)] (VObj s)))]) ->
    NoDup (map fst s) ->
    has_message (VObj s) = true ->
    mergeErrors fe (VObj (("root", VObj r) :: rest)) onMerge w
    = (fe1 <- put fe ("root." ++ name) (root_node t (VObj s)) ;;
       mergeErrors fe1 (VObj rest) onMerge w).
Proof.
  intros fe r rest onMerge w name t s Hr Hparse Hnd Hs.
  rewrite (mergeErrors_unfold fe). cbn [truthy negb entries merge_entries].
  unfold merge_entry at 1. unfold has_message in Hr. rewrite Hr.
  cbn [typeof_object isArray negb andb]. rewrite Hparse. cbn [bind].
  rewrite mergeErrors_single_node by now rewrite has_message_spread.
  fold (root_node t (VObj s)).
  destruct (put fe ("root." ++ name) (root_node t (VObj s))) as [fe1 | e | |];
    cbn [bind fst snd]; try reflexivity.
  rewrite (mergeErrors_unfold fe1). reflexivity.
Qed.

(** C1 (amended).  For a backend tree whose entry under ["root"] is an
    object without a truthy [message]: when [serverError] is the only
    truthy one of the two reserved sub-fields and is an object with a
    message, the entry contributes the single key ["root.serverError"],
    holding the properties of [serverError] and the type ["400"] unless
    [serverError] has a type of its own; likewise for [random], the key
    ["root.random"] and the type ["random"]; the other sub-fields of
    [root] contribute nothing. *)
Theorem root_entry_rewritten :
  forall fe r rest onMerge w name other t s,
    (name = "serverError" /\ other = "random" /\ t = "400"
     \/ name = "random" /\ other = "serverError" /\ t = "random") ->
    has_message (VObj r) = false ->
    lookup name r = Some (VObj s) ->
    vacant (lookup other r) = true ->
    NoDup (map fst s) ->
    has_message (VObj s) = true ->
    mergeErrors fe (VObj (("root", VObj r) :: rest)) onMerge w
    = (fe1 <- put fe ("root." ++ name) (root_node t (VObj s)) ;;
       mergeErrors fe1 (VObj rest) onMerge w)
    /\ exists node,
         root_node t (VObj s) = VObj node
         /\ forall j,
              lookup j node
              = match lookup j s with
                | Some x => Some x
                | None => if String.eqb j "type" then Some (VStr t) else None
                end.
Proof.
  intros fe r rest onMerge w name other t s Hcase Hr Hname Hother Hnd Hs.
  split; [| now apply root_node_lookup].
  apply merge_root_entry; auto.
  assert (Hfalsy : truthy (opt_member (VObj r) other) = false).
  { cbn [opt_member]. destruct (lookup other r) as [x |]; cbn in *;
      [now apply negb_true_iff | reflexivity]. }
  unfold parseRightValue. cbn [String.eqb Ascii.eqb Bool.eqb member bind].
  destruct Hcase as [(-> & -> & ->) | (-> & -> & ->)].
  - rewrite Hfalsy. cbn [opt_member]. rewrite Hname. reflexivity.
  - rewrite Hfalsy. cbn [opt_member]. rewrite Hname. reflexivity.
Qed.

(** ** Further properties *)

(** X1.  [mergeErrors] terminates: the fuel that the embedding gives it is
    never exhausted, and more fuel changes nothing. *)
Theorem mergeErrors_fuel_suffices :
  forall fe be onMerge w,
    mergeErrors fe be onMerge w <> OutOfFuel
    /\ forall fuel,
         merge_fuel be <= fuel ->
         mergeErrors_fuel fuel fe be onMerge w = mergeErrors fe be onMerge w.
Proof.
  intros fe be onMerge w. split.
  - apply mergeErrors_terminates.
  - intros fuel. apply mergeErrors_fuel_stable.
Qed.

Lemma generate_from_scalar :
  forall fd ps,
    (forall key e, In (key, e) fd ->
       no_dot key = true /\ plain_last key = true /\ builtin key = false) ->
    generate_from (VObj ps) fd
    = Ok (VObj (fold_left (fun acc kv => set_prop (fst kv) (value_of_entry (snd kv)) acc)
                  fd ps)).
Proof.
  induction fd as [| [key e] fd IH]; intros ps H; cbn [generate_from fold_left fst snd].
  - reflexivity.
  - destruct (H key e (or_introl eq_refl)) as (Hdot & Hplain & Hb).
    rewrite (split_dot_no_dot _ Hdot). cbn [walk]. unfold assign_last.
    destruct (plain_last_not_index _ Hplain) as [Hs _]. rewrite Hs.
    unfold plain_last in Hplain. rewrite Hs in Hplain.
    apply negb_true_iff in Hplain. rewrite Hplain.
    cbn [put]. rewrite Hb. cbn [bind].
    apply IH. intros key' e' Hin. apply (H key' e'). now right.
Qed.

(** X2.  Keys without dot, bracket suffix or purely numeric spelling that
    are not names of members of the built-in prototypes give a one-level
    object: each key maps to its value, and a later entry under a key
    overwrites an earlier one. *)
Theorem generateFormData_scalar_keys :
  forall fd,
    (forall key e, In (key, e) fd ->
       no_dot key = true /\ plain_last key = true /\ builtin key = false) ->
    generateFormData fd
    = Ok (VObj (fold_left (fun acc kv => set_prop (fst kv) (value_of_entry (snd kv)) acc)
                  fd [])).
Proof. intros fd H. now apply generate_from_scalar. Qed.

(** X3.  An entry of the backend tree that is a field error or a plain string
    is stored under its own key: [{type: "custom", ...value}] for a value
    with a message, [{message: value, type: "custom"}] for a string. *)
Theorem mergeErrors_stores_leaf :
  forall fe k rv rest onMerge w,
    stored rv = true ->
    mergeErrors fe (VObj ((k, rv) :: rest)) onMerge w
    = (fe1 <- put fe k
                (if has_message rv
                 then VObj (spread [("type", VStr "custom")] rv)
                 else VObj [("message", rv); ("type", VStr "custom")]) ;;
       mergeErrors fe1 (VObj rest) onMerge w).
Proof.
  intros fe k rv rest onMerge w Hstored.
  rewrite (mergeErrors_unfold fe). cbn [truthy negb entries merge_entries].
  unfold merge_entry at 1. fold (recurses rv). fold (has_message rv).
  unfold stored in Hstored. fold (has_message rv) in Hstored.
  destruct (recurses rv); [discriminate |]. cbn [negb andb] in Hstored.
  destruct (has_message rv).
  - destruct (put fe k _) as [fe1 | e | |]; cbn [bind fst snd]; try reflexivity.
    rewrite (mergeErrors_unfold fe1). reflexivity.
  - cbn [orb] in Hstored. rewrite Hstored.
    destruct (put fe k _) as [fe1 | e | |]; cbn [bind fst snd]; try reflexivity.
    rewrite (mergeErrors_unfold fe1). reflexivity.
Qed.

(** X4.  A merge adds or overwrites keys of the frontend tree and removes
    none. *)
Theorem mergeErrors_removes_no_key :
  forall fe be onMerge w fe' w' j x,
    mergeErrors fe be onMerge w = Ok (fe', w') ->
    own fe j = Some x ->
    exists y, own fe' j = Some y.
Proof.
  intros fe be onMerge w fe' w' j x Hrun Hown.
  exact (mergeErrors_keeps_keys _ _ _ _ _ Hrun _ _ Hown).
Qed.

(** ** [generateFormData]: where an entry is written *)

Lemma at_path_cons :
  forall v k path,
    at_path v (k :: path)
    = match own v k with
      | Some child => at_path child path
      | None => None
      end.
Proof. reflexivity. Qed.

Lemma assigns_cons :
  forall k next rest, assigns k (next :: rest) = assigns next rest.
Proof. reflexivity. Qed.

Lemma plain_target :
  forall rest k, assigns k rest = true -> target_path k rest = k :: rest.
Proof.
  induction rest as [| next rest IH]; intros k H.
  - unfold assigns in H. cbn [last] in H. cbn [target_path].
    unfold plain_last in H. destruct (strip_bracket k); [discriminate |].
    apply negb_true_iff in H. now rewrite H.
  - cbn [target_path]. rewrite assigns_cons in H. now rewrite (IH _ H).
Qed.

(** Below a falsy value, and below a container that has just been made,
    there is no list. *)
Lemma list_at_falsy :
  forall y path, truthy y = false -> list_at y path = ([], []).
Proof.
  intros y [| j path] Hy; unfold list_at; cbn [at_path].
  - destruct y; try reflexivity; discriminate.
  - destruct y; try reflexivity; discriminate.
Qed.

Lemma list_at_fresh_list :
  forall path, list_at (VArr [] []) path = ([], []).
Proof.
  intros [| j path]; unfold list_at; cbn [at_path]; [reflexivity |].
  cbn [own]. destruct (array_index j) as [i |].
  - destruct (N.to_nat i); reflexivity.
  - destruct (String.eqb j "length"); reflexivity.
Qed.

Lemma list_at_fresh_object :
  forall path, list_at (VObj []) path = ([], []).
Proof. intros [| j path]; reflexivity. Qed.

Lemma list_at_cons :
  forall cur k path child,
    own cur k = Some child -> list_at cur (k :: path) = list_at child path.
Proof.
  intros cur k path child H. unfold list_at. cbn [at_path]. now rewrite H.
Qed.

Lemma list_at_vacant :
  forall cur k path, vacant (own cur k) = true -> list_at cur (k :: path) = ([], []).
Proof.
  intros cur k path H. destruct (own cur k) as [y |] eqn:E.
  - rewrite (list_at_cons _ _ _ _ E). apply list_at_falsy.
    cbn in H. now apply negb_true_iff.
  - unfold list_at. cbn [at_path]. now rewrite E.
Qed.

(** The list that a slot holds when it is entered. *)
Lemma entered_list_at :
  forall cur k fresh cur1 child path,
    entered cur k fresh cur1 child ->
    fresh = VArr [] [] \/ fresh = VObj [] ->
    list_at cur (k :: path) = list_at child path.
Proof.
  intros cur k fresh cur1 child path [child' Hown _ | cur1' Hv _] Hfresh.
  - now apply list_at_cons.
  - rewrite (list_at_vacant _ _ _ Hv).
    destruct Hfresh as [-> | ->];
      [now rewrite list_at_fresh_list | now rewrite list_at_fresh_object].
Qed.

Lemma fresh_container :
  forall next,
    (if test_index next then VArr [] [] else VObj []) = VArr [] []
    \/ (if test_index next then VArr [] [] else VObj []) = VObj [].
Proof. intros next. destruct (test_index next); auto. Qed.

Lemma last_step_written :
  forall cur l v cur',
    last_step cur l v cur' ->
    at_path cur' (target_path l []) = Some (written cur l [] v).
Proof.
  intros cur l v cur' Hstep. unfold written, assigns. cbn [last target_path].
  destruct Hstep as [key cur1 es ex Hs He Hp | es ex Hs Ht -> Hp | cur1 Hplain Hput].
  - unfold plain_last. rewrite Hs.
    rewrite (entered_list_at _ _ _ _ _ [] He (or_introl eq_refl)).
    cbn [list_at at_path].
    now rewrite (own_store_back_same _ _ _ _ (entered_own _ _ _ _ _ He)).
  - unfold plain_last. rewrite Hs, Ht. reflexivity.
  - rewrite Hplain. destruct (plain_last_not_index _ Hplain) as [Hs _].
    rewrite Hs. unfold plain_last in Hplain. rewrite Hs in Hplain.
    apply negb_true_iff in Hplain. rewrite Hplain.
    cbn [at_path]. now rewrite (own_put_same _ _ _ _ Hput).
Qed.

Lemma walk_written :
  forall rest cur k v cur',
    walk cur k rest v = Ok cur' ->
    at_path cur' (target_path k rest) = Some (written cur k rest v).
Proof.
  induction rest as [| next rest IH]; intros cur k v cur' Hwalk.
  - cbn in Hwalk. apply assign_last_ok in Hwalk. now apply last_step_written.
  - apply walk_step in Hwalk as (cur1 & child & child' & He & Hwalk & ->).
    cbn [target_path]. rewrite at_path_cons.
    rewrite (own_store_back_same _ _ _ _ (entered_own _ _ _ _ _ He)).
    rewrite (IH _ _ _ _ Hwalk).
    unfold written. rewrite assigns_cons. cbn [target_path].
    now rewrite (entered_list_at _ _ _ _ _ (target_path next rest) He
                   (fresh_container next)).
Qed.

Lemma generateFormData_app :
  forall fd1 fd2 out,
    generateFormData fd1 = Ok out ->
    generateFormData (fd1 ++ fd2)%list = generate_from out fd2.
Proof.
  intros fd1 fd2 out H. unfold generateFormData in *.
  now rewrite generate_from_app, H.
Qed.

Lemma generate_from_one :
  forall out key e,
    generate_from out [(key, e)]
    = walk out (fst (split_dot key)) (snd (split_dot key)) (value_of_entry e).
Proof.
  intros out key e. cbn [generate_from].
  destruct (split_dot key) as [k rest]. cbn [fst snd].
  now destruct (walk out k rest (value_of_entry e)).
Qed.

(** X5.  On the entry sets that the embedding covers (string values; key
    parts that name no member of a built-in prototype, [length] among
    them), and in every other run that returns in the embedding, the entry
    written last can be read back along its key parts.  After a plain last part the path of
    the key parts holds the value of the entry; after a bracket-suffixed
    or purely numeric last part the list at the slot of the entry holds
    what it held before (nothing, if there was no list) followed by the
    value. *)
Theorem last_entry_is_read_back :
  forall fd key e out out' keyPart rest,
    generateFormData fd = Ok out ->
    generateFormData (fd ++ [(key, e)])%list = Ok out' ->
    split_dot key = (keyPart, rest) ->
    (assigns keyPart rest = true ->
     at_path out' (keyPart :: rest) = Some (value_of_entry e))
    /\ (assigns keyPart rest = false ->
        forall es ex,
          list_at out (target_path keyPart rest) = (es, ex) ->
          at_path out' (target_path keyPart rest)
          = Some (VArr (es ++ [value_of_entry e])%list ex)).
Proof.
  intros fd key e out out' k rest Hfd Hrun Hsplit.
  rewrite (generateFormData_app _ _ _ Hfd), generate_from_one, Hsplit in Hrun.
  cbn [fst snd] in Hrun.
  pose proof (walk_written _ _ _ _ _ Hrun) as H. unfold written in H.
  split.
  - intros Ha. rewrite Ha in H. now rewrite <- (plain_target _ _ Ha).
  - intros Ha es ex Hl. now rewrite Ha, Hl in H.
Qed.

(** ** [generateFormData]: what an entry leaves untouched *)

Lemma at_path_snoc :
  forall es ex v path x,
    path <> [] ->
    at_path (VArr es ex) path = Some x ->
    at_path (VArr (es ++ [v])%list ex) path = Some x.
Proof.
  intros es ex v [| j path] x Hne; [contradiction |].
  rewrite !at_path_cons.
  destruct (own (VArr es ex) j) as [y |] eqn:E; [| discriminate].
  now rewrite (own_snoc _ _ v _ _ E).
Qed.

Lemma at_path_truthy :
  forall y path x, path <> [] -> at_path y path = Some x -> truthy y = true.
Proof.
  intros y [| j path] x Hne; [contradiction |].
  rewrite at_path_cons. destruct (own y j) eqn:E; [| discriminate].
  intros _. apply own_container in E. destruct y; cbn in *; congruence.
Qed.

(** Entering the slot [k] and what is found along a path that does not
    stop at [k]. *)
Lemma entered_at_path :
  forall cur k fresh cur1 child j p x,
    entered cur k fresh cur1 child ->
    at_path cur (j :: p) = Some x ->
    (j = k -> p <> []) ->
    at_path cur1 (j :: p) = Some x /\ (j = k -> own cur k = Some child).
Proof.
  intros cur k fresh cur1 child j p x [child' Hown Ht | cur1' Hv Hput] Hx Hp.
  - split; [exact Hx | auto].
  - rewrite at_path_cons in *.
    destruct (own cur j) as [y |] eqn:E; [| discriminate].
    destruct (String.eqb_spec j k) as [-> | Hjk].
    + rewrite E in Hv. cbn in Hv.
      rewrite (at_path_truthy _ _ _ (Hp eq_refl) Hx) in Hv. discriminate.
    + rewrite (own_put_other _ _ _ _ _ _ Hput Hjk E).
      split; [exact Hx | congruence].
Qed.

Lemma store_back_at_path :
  forall cur1 k child child' j p x,
    own cur1 k = Some child ->
    (j = k -> at_path child p = Some x -> at_path child' p = Some x) ->
    at_path cur1 (j :: p) = Some x ->
    at_path (store_back cur1 k child') (j :: p) = Some x.
Proof.
  intros cur1 k child child' j p x Hown Hchild. rewrite !at_path_cons.
  destruct (String.eqb_spec j k) as [-> | Hjk].
  - rewrite Hown, (own_store_back_same _ _ _ child' Hown). now apply Hchild.
  - destruct (own cur1 j) as [y |] eqn:E; [| discriminate].
    now rewrite (own_store_back_other _ _ child' _ _ Hjk E).
Qed.

Lemma is_prefix_nil : forall path, is_prefix path [] = false -> path <> [].
Proof. intros [| j p]; [discriminate | discriminate]. Qed.

Lemma last_step_frame :
  forall cur l v cur' path x,
    last_step cur l v cur' ->
    at_path cur path = Some x ->
    disturbs l [] path = false ->
    at_path cur' path = Some x.
Proof.
  intros cur l v cur' path x Hstep Hx Hd.
  unfold disturbs, assigns in Hd. cbn [last target_path] in Hd.
  apply orb_false_iff in Hd as [Hup Hdown].
  destruct Hstep as [key cur1 es ex Hs He Hp | es ex Hs Ht -> Hp | cur1 Hplain Hput].
  - rewrite Hs in Hup. destruct path as [| j p]; [discriminate |].
    assert (Hjp : j = key -> p <> []).
    { intros -> ->. cbn in Hup. now rewrite String.eqb_refl in Hup. }
    destruct (entered_at_path _ _ _ _ _ _ _ _ He Hx Hjp) as [Hx1 Hsame].
    eapply store_back_at_path; eauto using entered_own.
    intros Hjk. now apply at_path_snoc, Hjp.
  - rewrite Hs, Ht in Hup. apply at_path_snoc; [| exact Hx].
    now apply is_prefix_nil.
  - destruct (plain_last_not_index _ Hplain) as [Hs _].
    rewrite Hplain, Hs in *. unfold plain_last in Hplain. rewrite Hs in Hplain.
    apply negb_true_iff in Hplain. rewrite Hplain in *.
    destruct path as [| j p]; [discriminate |].
    cbn in Hdown. rewrite at_path_cons in *.
    destruct (own cur j) as [y |] eqn:E; [| discriminate].
    assert (Hjl : j <> l).
    { intros ->. now rewrite String.eqb_refl in Hdown. }
    now rewrite (own_put_other _ _ _ _ _ _ Hput Hjl E).
Qed.

Lemma disturbs_cons :
  forall k next rest p,
    disturbs k (next :: rest) (k :: p) = disturbs next rest p.
Proof.
  intros. unfold disturbs. rewrite assigns_cons. cbn [target_path is_prefix].
  now rewrite String.eqb_refl.
Qed.

Lemma walk_frame :
  forall rest cur k v cur' path x,
    walk cur k rest v = Ok cur' ->
    at_path cur path = Some x ->
    disturbs k rest path = false ->
    at_path cur' path = Some x.
Proof.
  induction rest as [| next rest IH]; intros cur k v cur' path x Hwalk Hx Hd.
  - cbn in Hwalk. apply assign_last_ok in Hwalk. eapply last_step_frame; eauto.
  - apply walk_step in Hwalk as (cur1 & child & child' & He & Hwalk & ->).
    destruct path as [| j p].
    { unfold disturbs in Hd. cbn in Hd. discriminate. }
    assert (Hjp : j = k -> p <> []).
    { intros -> ->. unfold disturbs in Hd. cbn [target_path is_prefix] in Hd.
      rewrite String.eqb_refl in Hd. cbn in Hd. discriminate. }
    destruct (entered_at_path _ _ _ _ _ _ _ _ He Hx Hjp) as [Hx1 Hsame].
    eapply store_back_at_path; eauto using entered_own.
    intros -> Hchild. eapply IH; eauto.
    now rewrite disturbs_cons in Hd.
Qed.

Lemma generate_from_frame :
  forall fd out out' path x,
    generate_from out fd = Ok out' ->
    at_path out path = Some x ->
    (forall key e, In (key, e) fd ->
       disturbs (fst (split_dot key)) (snd (split_dot key)) path = false) ->
    at_path out' path = Some x.
Proof.
  induction fd as [| [key e] fd IH]; intros out out' path x Hrun Hx Hfd; cbn in Hrun.
  - now injection Hrun as <-.
  - pose proof (Hfd key e (or_introl eq_refl)) as Hd.
    destruct (split_dot key) as [k rest]. cbn [fst snd] in Hd.
    apply bind_ok in Hrun as (out1 & Hwalk & Hrun).
    eapply IH; eauto.
    + eapply walk_frame; eauto.
    + intros key' e' Hin. apply (Hfd key' e'). now right.
Qed.

(** X6.  On the entry sets that the embedding covers (string values; key
    parts that name no member of a built-in prototype, [length] among
    them), and in every other run that returns in the embedding, further
    entries leave untouched whatever they do not disturb: a value found at a path after
    the entries [fd1] is found there after [fd1 ++ fd2] too, when for
    every entry of [fd2] the path is no prefix of the slot of the entry
    (the entry writes neither at the path nor inside the value found
    there) and, if the last part of the entry is plain, the slot is no
    prefix of the path (the entry assigns nothing on the way from the root
    to the path).  Appending to a list does not disturb the elements that
    the list already has. *)
Theorem undisturbed_values_stay :
  forall fd1 fd2 out out' path x,
    generateFormData fd1 = Ok out ->
    generateFormData (fd1 ++ fd2)%list = Ok out' ->
    at_path out path = Some x ->
    (forall key e, In (key, e) fd2 ->
       disturbs (fst (split_dot key)) (snd (split_dot key)) path = false) ->
    at_path out' path = Some x.
Proof.
  intros fd1 fd2 out out' path x Hfd Hrun Hx Hfd2.
  rewrite (generateFormData_app _ _ _ Hfd) in Hrun.
  eapply generate_from_frame; eauto.
Qed.

(** ** [generateFormData]: runs *)

Lemma split_dot_dotted :
  forall name digits,
    no_dot name = true -> no_dot digits = true ->
    split_dot (dotted_key name digits) = (name, [digits]).
Proof.
  unfold dotted_key. intros name digits Hn Hd.
  change ("." ++ digits) with (String "." digits).
  induction name as [| c name IH]; cbn [append split_dot].
  - now rewrite (split_dot_no_dot _ Hd).
  - cbn in Hn. apply andb_true_iff in Hn as [Hc Hn].
    rewrite (IH Hn). apply negb_true_iff in Hc. now rewrite Hc.
Qed.

Lemma test_index_digits :
  forall s, test_index s = true -> all_digits s = true.
Proof. unfold test_index. intros s H. now apply andb_true_iff in H as [_ H]. Qed.

Lemma walk_numeric_list :
  forall name digits v es,
    test_index digits = true ->
    walk (VObj [(name, VArr es [])]) name [digits] v
    = Ok (VObj [(name, VArr (es ++ [v])%list [])]).
Proof.
  intros name digits v es Hd. cbn [walk get lookup]. rewrite String.eqb_refl.
  cbn [bind truthy get lookup]. rewrite String.eqb_refl. cbn [bind].
  unfold assign_last.
  rewrite (strip_bracket_numeric _ (test_index_digits _ Hd)), Hd.
  cbn [push has_key lookup bind store_back replace_prop].
  now rewrite String.eqb_refl.
Qed.

Lemma generate_from_numeric :
  forall name items es,
    no_dot name = true ->
    Forall (fun item => test_index (fst item) = true) items ->
    generate_from (VObj [(name, VArr es [])])
      (map (fun item => (dotted_key name (fst item), snd item)) items)
    = Ok (VObj [(name, VArr (es ++ map value_of_entry (map snd items))%list [])]).
Proof.
  intros name items es Hn Hall. revert es.
  induction Hall as [| [digits e] items Hd _ IH]; intros es; cbn [map generate_from fst snd].
  - now rewrite app_nil_r.
  - cbn [fst] in Hd.
    rewrite (split_dot_dotted _ _ Hn (all_digits_no_dot _ (test_index_digits _ Hd))).
    rewrite (walk_numeric_list _ _ _ _ Hd). cbn [bind].
    rewrite IH. now rewrite <- app_assoc.
Qed.

(** X7.  Keys that repeat one field name (without dot, and not the name
    of a member of a built-in prototype) with purely numeric last parts
    ([name.0], [name.1], ...) give a list under that name, holding the
    values in the order of the entries, whatever the numbers are: the
    number is not used as a position. *)
Theorem numeric_parts_accumulate :
  forall name item items,
    no_dot name = true -> builtin name = false ->
    Forall (fun item => test_index (fst item) = true) (item :: items) ->
    generateFormData
      (map (fun item => (dotted_key name (fst item), snd item)) (item :: items))
    = Ok (VObj [(name, VArr (map value_of_entry (map snd (item :: items))) [])]).
Proof.
  intros name [digits e] items Hn Hb Hall.
  apply Forall_cons_iff in Hall as [Hd Hall]. cbn [fst] in Hd.
  unfold generateFormData. cbn [map generate_from fst snd].
  rewrite (split_dot_dotted _ _ Hn (all_digits_no_dot _ (test_index_digits _ Hd))).
  cbn [walk get lookup]. unfold inherited. rewrite Hb.
  cbn [bind truthy put]. rewrite Hb, Hd, set_prop_nil.
  fold (inherited name).
  change (held <- Ok (VObj [(name, VArr [] [])]) ;; ?k) with k.
  pose proof (walk_numeric_list name digits (value_of_entry e) [] Hd) as Hw.
  cbn [walk get lookup] in Hw. rewrite String.eqb_refl in Hw.
  cbn [bind truthy get lookup] in Hw. rewrite String.eqb_refl in Hw.
  cbn [bind] in Hw.
  cbn [bind get lookup]. rewrite String.eqb_refl. cbn [bind].
  rewrite Hw. cbn [bind app].
  now rewrite (generate_from_numeric _ _ _ Hn Hall).
Qed.

(** ** [validateFormData] and [getValidatedFormData] *)

Lemma member_nullish :
  forall v name,
    member v name = if nullish v then Throw TypeError else Ok (opt_member v name).
Proof. intros v name. now destruct v. Qed.

Lemma Object_keys_nullish :
  forall v,
    Object_keys v = if nullish v then Throw TypeError else Ok (map fst (entries v)).
Proof. intros v. now destruct v. Qed.

(** [validateFormData] in terms of the resolver's answer. *)
Lemma validateFormData_answer :
  forall data resolver result,
    resolver data (VObj []) resolver_options = Ok result ->
    validateFormData data resolver
    = if nullish result || nullish (opt_member result "errors") then Throw TypeError
      else match entries (opt_member result "errors") with
           | [] => Ok (VObj [("errors", VUndefined);
                             ("data", opt_member result "values")])
           | _ :: _ => Ok (VObj [("errors", opt_member result "errors");
                                 ("data", VUndefined)])
           end.
Proof.
  intros data resolver result Hres. unfold validateFormData.
  rewrite Hres. cbn [bind]. rewrite !member_nullish.
  destruct (nullish result); cbn [bind orb]; [reflexivity |].
  rewrite Object_keys_nullish.
  destruct (nullish (opt_member result "errors")); cbn [bind]; [reflexivity |].
  now destruct (entries (opt_member result "errors")).
Qed.

(** X8.  [validateFormData] raises exactly when the resolver raises, or
    with a [TypeError] when the resolver answers [undefined] or [null], or
    an answer whose [errors] is [undefined] or [null] (an answer without
    [errors], for one): the keys of [errors] are read before anything is
    returned. *)
Theorem validateFormData_raises :
  forall data resolver e,
    validateFormData data resolver = Throw e
    <-> resolver data (VObj []) resolver_options = Throw e
        \/ (e = TypeError
            /\ exists result,
                 resolver data (VObj []) resolver_options = Ok result
                 /\ nullish result || nullish (opt_member result "errors") = true).
Proof.
  intros data resolver e.
  destruct (resolver data (VObj []) resolver_options) as [result | e' | |] eqn:Hres.
  - rewrite (validateFormData_answer _ _ _ Hres).
    destruct (nullish result || nullish (opt_member result "errors")) eqn:Hn.
    + split.
      * intros H. injection H as <-. right. split; [reflexivity |].
        exists result. now split.
      * intros [H | [-> _]]; [discriminate | reflexivity].
    + split.
      * intros H. destruct (entries (opt_member result "errors")); discriminate.
      * intros [H | [_ (result' & H & Hn')]]; [discriminate |].
        injection H as <-. rewrite Hn in Hn'. discriminate.
  - unfold validateFormData. rewrite Hres. cbn [bind]. split.
    + intros H. now left.
    + intros [H | [_ (result & H & _)]]; [exact H | discriminate].
  - unfold validateFormData. rewrite Hres. cbn [bind]. split.
    + discriminate.
    + intros [H | [_ (result & H & _)]]; discriminate.
  - unfold validateFormData. rewrite Hres. cbn [bind]. split.
    + discriminate.
    + intros [H | [_ (result & H & _)]]; discriminate.
Qed.

Lemma validateFormData_shape :
  forall data resolver out,
    validateFormData data resolver = Ok out ->
    exists result,
      resolver data (VObj []) resolver_options = Ok result
      /\ VObj (set_prop "receivedValues" data (spread [] out)) = validated result data.
Proof.
  intros data resolver out H.
  destruct (resolver data (VObj []) resolver_options) as [result | e' | |] eqn:Hres;
    try (unfold validateFormData in H; rewrite Hres in H; discriminate).
  exists result. split; [reflexivity |].
  rewrite (validateFormData_answer _ _ _ Hres) in H. unfold validated.
  destruct (nullish result || nullish (opt_member result "errors")); [discriminate |].
  destruct (entries (opt_member result "errors")); injection H as <-; reflexivity.
Qed.

(** X9.  What [getValidatedFormData] returns.  The data are the flattened
    search parameters of the URL for a GET request and the parsed body
    otherwise; the answer has exactly the fields [errors], [data] and
    [receivedValues], in this order; [receivedValues] holds the data as
    they were handed to the resolver, whether they are valid or not; and
    [errors] and [data] are never both present. *)
Theorem getValidatedFormData_result :
  forall request resolver out,
    getValidatedFormData request resolver = Ok out ->
    exists data result,
      (if isGet request then getFormDataFromSearchParams request
       else parseFormData request "formData") = Ok data
      /\ resolver data (VObj []) resolver_options = Ok result
      /\ out = validated result data
      /\ exists errors d,
           out = VObj [("errors", errors); ("data", d); ("receivedValues", data)]
           /\ (errors = VUndefined \/ d = VUndefined).
Proof.
  intros request resolver out H. unfold getValidatedFormData in H.
  apply bind_ok in H as (data & Hdata & H).
  apply bind_ok in H as (validatedOutput & Hv & H).
  injection H as <-.
  destruct (validateFormData_shape _ _ _ Hv) as (result & Hres & Hout).
  exists data, result. repeat split; auto.
  rewrite Hout. unfold validated.
  destruct (entries (opt_member result "errors")); eauto.
Qed.

(** X10.  Data sent with [createFormData] under the default key arrive at
    the resolver as they were: when the host's [JSON.parse] inverts
    [JSON.stringify] on [data], a request that is not a GET and whose body
    is [createFormData data "formData"] is answered from the resolver's
    answer for [data] itself, with [receivedValues] equal to [data]. *)
Theorem getValidatedFormData_roundtrip :
  forall (data : value) (text : string) (request : Request) (resolver : Resolver)
         (result : value),
    JSON_parse "" = Throw SyntaxError ->
    JSON_stringify data = Some text ->
    JSON_parse text = Ok data ->
    isGet request = false ->
    formData request = Ok (createFormData data "formData") ->
    resolver data (VObj []) resolver_options = Ok result ->
    nullish result || nullish (opt_member result "errors") = false ->
    getValidatedFormData request resolver = Ok (validated result data).
Proof.
  intros data text request resolver result Hempty Hprint Hparse Hget Hbody Hres Hn.
  assert (Hne : text <> "").
  { intros ->. rewrite Hempty in Hparse. discriminate. }
  unfold getValidatedFormData. rewrite Hget.
  rewrite (parseFormData_text request "formData" _ text Hbody); [| | exact Hne].
  - rewrite Hparse. cbn [bind].
    rewrite (validateFormData_answer _ _ _ Hres), Hn. unfold validated.
    now destruct (entries (opt_member result "errors")).
  - unfold createFormData. rewrite Hprint. apply FormData_get_head.
Qed.

(** ** [mergeErrors]: entries that are passed over *)

Lemma mergeErrors_empty :
  forall fe be w,
    entries be = [] -> mergeErrors fe be noop w = Ok (fe, w).
Proof.
  intros fe be w He. rewrite mergeErrors_unfold, He.
  now destruct (truthy be).
Qed.

Lemma merge_entry_inert :
  forall fe w k rv,
    inert k rv = true ->
    merge_entry (fun fe' sub w' => mergeErrors fe' sub noop w') fe w k rv = Ok (fe, w).
Proof.
  intros fe w k rv H. unfold merge_entry.
  destruct rv as [| | b | z | s | n | es ex | ps]; cbn in H; try discriminate;
    cbn [typeof_object isArray andb negb opt_member truthy typeof_string];
    try reflexivity.
  - apply negb_true_iff in H. unfold parseRightValue. rewrite H. cbn [bind].
    now apply mergeErrors_empty.
  - unfold parseRightValue.
    destruct (String.eqb k "root"); cbn [bind member opt_member truthy];
      now apply mergeErrors_empty.
  - apply negb_true_iff in H. unfold has_message in H. cbn [opt_member] in H.
    rewrite H. reflexivity.
  - destruct ps as [| p ps]; [| discriminate].
    cbn [lookup truthy negb]. unfold parseRightValue.
    destruct (String.eqb k "root"); cbn [bind member opt_member lookup truthy];
      now apply mergeErrors_empty.
Qed.

(** X11.  Backend entries that are neither field errors, strings nor
    objects with something in them are passed over without a trace and
    without an error: numbers, booleans, [undefined], lists that carry no
    message, [File]s, empty objects, and [null] under any key but
    ["root"]. *)
Theorem mergeErrors_passes_over :
  forall fe k rv rest onMerge w,
    inert k rv = true ->
    mergeErrors fe (VObj ((k, rv) :: rest)) onMerge w
    = mergeErrors fe (VObj rest) onMerge w.
Proof.
  intros fe k rv rest onMerge w H.
  rewrite (mergeErrors_unfold fe (VObj ((k, rv) :: rest))).
  rewrite (mergeErrors_unfold fe (VObj rest)).
  cbn [truthy negb entries merge_entries].
  now rewrite (merge_entry_inert _ _ _ _ H).
Qed.

(** ** [mergeErrors] as a sequence of assignments *)

Lemma put_all_app :
  forall a b fe,
    put_all fe (a ++ b)%list = (fe1 <- put_all fe a ;; put_all fe1 b).
Proof.
  induction a as [| [k node] a IH]; intros b fe; cbn [app put_all bind]; [reflexivity |].
  destruct (put fe k node); cbn [bind]; auto.
Qed.

Lemma stored_not_recurses :
  forall rv, stored rv = true -> recurses rv = false.
Proof.
  unfold stored. intros rv H. apply andb_true_iff in H as [H _].
  now apply negb_true_iff.
Qed.

(** One entry of the loop, in terms of what it writes. *)
Lemma merge_entry_writes :
  forall (recur : value -> value -> W -> outcome (value * W))
         (wr : value -> outcome props) k rv here,
    (forall sub ws, wr sub = Ok ws ->
       forall fe w, recur fe sub w = (fe1 <- put_all fe ws ;; Ok (fe1, w))) ->
    entry_writes wr k rv = Ok here ->
    forall fe w,
      merge_entry recur fe w k rv = (fe1 <- put_all fe here ;; Ok (fe1, w)).
Proof.
  intros recur wr k rv here Hrec Hw fe w.
  unfold entry_writes in Hw. unfold merge_entry. fold (recurses rv).
  destruct (recurses rv) eqn:Hr.
  - apply bind_ok in Hw as (sub & Hsub & Hw). rewrite Hsub. cbn [bind].
    now apply Hrec.
  - unfold stored in Hw. rewrite Hr in Hw. cbn [negb andb] in Hw.
    unfold field_error, has_message in Hw.
    destruct (truthy (opt_member rv "message")) eqn:Hm.
    + cbn [orb] in Hw. injection Hw as <-. cbn [put_all].
      destruct (put fe k _); reflexivity.
    + cbn [orb] in Hw. destruct (typeof_string rv).
      * injection Hw as <-. cbn [put_all]. destruct (put fe k _); reflexivity.
      * now injection Hw as <-.
Qed.

Lemma merge_entries_writes :
  forall (recur : value -> value -> W -> outcome (value * W))
         (wr : value -> outcome props),
    (forall sub ws, wr sub = Ok ws ->
       forall fe w, recur fe sub w = (fe1 <- put_all fe ws ;; Ok (fe1, w))) ->
    forall es ws,
      entries_writes wr es = Ok ws ->
      forall fe w,
        merge_entries recur es fe w = (fe1 <- put_all fe ws ;; Ok (fe1, w)).
Proof.
  intros recur wr Hrec. induction es as [| [k rv] es IH]; intros ws Hw fe w.
  - injection Hw as <-. reflexivity.
  - cbn [entries_writes] in Hw.
    apply bind_ok in Hw as (here & Hhere & Hw).
    apply bind_ok in Hw as (later & Hlater & Hw). injection Hw as <-.
    cbn [merge_entries].
    rewrite (merge_entry_writes _ _ _ _ _ Hrec Hhere), put_all_app.
    destruct (put_all fe here) as [fe1 | | |]; cbn [bind fst snd]; try reflexivity.
    now apply IH.
Qed.

Lemma mergeErrors_fuel_writes :
  forall n be ws,
    writes_fuel n be = Ok ws ->
    forall fe onMerge w,
      mergeErrors_fuel n fe be onMerge w
      = (fe1 <- put_all fe ws ;; Ok (fe1, if truthy be then onMerge fe1 w else w)).
Proof.
  induction n as [| n IH]; intros be ws Hw fe onMerge w;
    cbn [writes_fuel mergeErrors_fuel] in *;
    destruct (truthy be); cbn [negb] in *; try discriminate.
  - now injection Hw as <-.
  - assert (Hrec : forall sub ws', writes_fuel n sub = Ok ws' ->
              forall fe' w', mergeErrors_fuel n fe' sub noop w'
                             = (fe1 <- put_all fe' ws' ;; Ok (fe1, w'))).
    { intros sub ws' Hs fe' w'. rewrite (IH _ _ Hs).
      destruct (truthy sub); reflexivity. }
    rewrite (merge_entries_writes _ _ Hrec _ _ Hw).
    destruct (put_all fe ws); reflexivity.
  - now injection Hw as <-.
Qed.

(** A merge that returns has a sequence of assignments. *)
Lemma merge_entries_has_writes :
  forall (recur : value -> value -> W -> outcome (value * W))
         (wr : value -> outcome props),
    (forall fe sub w st, recur fe sub w = Ok st -> exists ws, wr sub = Ok ws) ->
    forall es fe w st,
      merge_entries recur es fe w = Ok st ->
      exists ws, entries_writes wr es = Ok ws.
Proof.
  intros recur wr Hrec. induction es as [| [k rv] es IH]; intros fe w st H.
  - now exists [].
  - cbn [merge_entries] in H. apply bind_ok in H as (st1 & Hentry & H).
    destruct (IH _ _ _ H) as (later & Hlater).
    assert (Hhere : exists here, entry_writes wr k rv = Ok here).
    { unfold merge_entry in Hentry. fold (recurses rv) in Hentry.
      unfold entry_writes. destruct (recurses rv).
      - apply bind_ok in Hentry as (sub & Hsub & Hentry). rewrite Hsub. cbn [bind].
        eapply Hrec; eauto.
      - destruct (stored rv); eauto. }
    destruct Hhere as (here & Hhere).
    exists (here ++ later)%list. cbn [entries_writes].
    now rewrite Hhere, Hlater.
Qed.

Lemma mergeErrors_fuel_has_writes :
  forall n fe be onMerge w st,
    mergeErrors_fuel n fe be onMerge w = Ok st ->
    exists ws, writes_fuel n be = Ok ws.
Proof.
  induction n as [| n IH]; intros fe be onMerge w st H;
    cbn [writes_fuel mergeErrors_fuel] in *;
    destruct (truthy be); cbn [negb] in *; try discriminate;
    try (now exists []).
  apply bind_ok in H as (st1 & H & _).
  eapply merge_entries_has_writes; [| exact H].
  intros fe0 sub w0 st0 H0. exact (IH _ _ _ _ _ H0).
Qed.

Lemma mergeErrors_has_writes :
  forall fe be onMerge w st,
    mergeErrors fe be onMerge w = Ok st -> exists ws, writes be = Ok ws.
Proof. intros fe be onMerge w st. apply mergeErrors_fuel_has_writes. Qed.

(** The assignments are those of the leaves. *)
Lemma entries_writes_in :
  forall wr es ws k rv,
    entries_writes wr es = Ok ws -> In (k, rv) es ->
    exists here, entry_writes wr k rv = Ok here /\ incl here ws.
Proof.
  intros wr. induction es as [| [k' rv'] es IH]; intros ws k rv H Hin; [contradiction |].
  cbn [entries_writes] in H.
  apply bind_ok in H as (here & Hhere & H).
  apply bind_ok in H as (later & Hlater & H). injection H as <-.
  destruct Hin as [Heq | Hin].
  - injection Heq as -> ->. exists here. split; [exact Hhere |].
    now apply incl_appl, incl_refl.
  - destruct (IH _ _ _ Hlater Hin) as (here' & H1 & H2).
    exists here'. split; [exact H1 |]. now apply incl_appr.
Qed.

Lemma entries_writes_from :
  forall wr es ws j node,
    entries_writes wr es = Ok ws -> In (j, node) ws ->
    exists k rv here,
      In (k, rv) es /\ entry_writes wr k rv = Ok here /\ In (j, node) here.
Proof.
  intros wr. induction es as [| [k' rv'] es IH]; intros ws j node H Hin.
  - injection H as <-. contradiction.
  - cbn [entries_writes] in H.
    apply bind_ok in H as (here & Hhere & H).
    apply bind_ok in H as (later & Hlater & H). injection H as <-.
    apply in_app_or in Hin as [Hin | Hin].
    + exists k', rv', here. repeat split; auto. now left.
    + destruct (IH _ _ _ Hlater Hin) as (k & rv & here' & H1 & H2 & H3).
      exists k, rv, here'. repeat split; auto. now right.
Qed.

Lemma leaf_is_written :
  forall be j leaf,
    flattened_leaf be j leaf ->
    forall n ws, writes_fuel n be = Ok ws -> In (j, field_error leaf) ws.
Proof.
  induction 1 as [be j leaf Hin Hst | be k rv sub j leaf Hin Hr Hsub _ IH];
    intros n ws Hw.
  - pose proof (entries_truthy _ _ _ Hin) as Ht.
    destruct n as [| n]; cbn [writes_fuel] in Hw; rewrite Ht in Hw; [discriminate |].
    cbn [negb] in Hw.
    destruct (entries_writes_in _ _ _ _ _ Hw Hin) as (here & Hhere & Hincl).
    unfold entry_writes in Hhere.
    rewrite (stored_not_recurses _ Hst), Hst in Hhere. injection Hhere as <-.
    apply Hincl. now left.
  - pose proof (entries_truthy _ _ _ Hin) as Ht.
    destruct n as [| n]; cbn [writes_fuel] in Hw; rewrite Ht in Hw; [discriminate |].
    cbn [negb] in Hw.
    destruct (entries_writes_in _ _ _ _ _ Hw Hin) as (here & Hhere & Hincl).
    unfold entry_writes in Hhere. rewrite Hr, Hsub in Hhere. cbn [bind] in Hhere.
    apply Hincl. eapply IH; eauto.
Qed.

Lemma written_is_leaf :
  forall n be ws j node,
    writes_fuel n be = Ok ws -> In (j, node) ws ->
    exists leaf, flattened_leaf be j leaf /\ node = field_error leaf.
Proof.
  induction n as [| n IH]; intros be ws j node Hw Hin;
    cbn [writes_fuel] in Hw; destruct (truthy be); cbn [negb] in Hw;
    try discriminate; try (injection Hw as <-; contradiction).
  destruct (entries_writes_from _ _ _ _ _ Hw Hin) as (k & rv & here & Hk & Hhere & Hj).
  unfold entry_writes in Hhere. destruct (recurses rv) eqn:Hr.
  - apply bind_ok in Hhere as (sub & Hsub & Hhere).
    destruct (IH _ _ _ _ Hhere Hj) as (leaf & Hleaf & ->).
    exists leaf. split; [| reflexivity]. eapply LeafBelow; eauto.
  - destruct (stored rv) eqn:Hst.
    + injection Hhere as <-. destruct Hj as [Hj | []]. injection Hj as <- <-.
      exists rv. split; [| reflexivity]. now apply LeafHere.
    + injection Hhere as <-. contradiction.
Qed.

(** X12.  A merge is the sequence of the assignments
    [frontendErrors[key] = node] for the leaves of the backend tree, made
    in depth-first order of the entries, followed by one call of the
    callback (none for a falsy backend), which finds the tree with all
    the assignments made: [writes] lists exactly the leaves, each with the
    field error stored for it, a merge that returns has such a list, and
    the merge is the left fold of [put] over it. *)
Theorem mergeErrors_is_a_fold_of_assignments :
  (forall fe be onMerge w st,
     mergeErrors fe be onMerge w = Ok st -> exists ws, writes be = Ok ws)
  /\ (forall be ws,
     writes be = Ok ws ->
     (forall fe onMerge w,
        mergeErrors fe be onMerge w
        = (fe1 <- put_all fe ws ;; Ok (fe1, if truthy be then onMerge fe1 w else w)))
     /\ (forall j node,
           In (j, node) ws
           <-> exists leaf, flattened_leaf be j leaf /\ node = field_error leaf)).
Proof.
  split; [exact mergeErrors_has_writes |].
  intros be ws Hw. split.
  - intros fe onMerge w. now apply mergeErrors_fuel_writes.
  - intros j node. split.
    + now apply written_is_leaf with (n := merge_fuel be).
    + intros (leaf & Hleaf & ->). eapply leaf_is_written; eauto.
Qed.

(** ** [mergeErrors]: the merged tree, key by key *)

Lemma put_all_frame :
  forall ws fe fe' j x,
    put_all fe ws = Ok fe' -> ~ In j (map fst ws) ->
    own fe j = Some x -> own fe' j = Some x.
Proof.
  induction ws as [| [k node] ws IH]; intros fe fe' j x H Hj Hown; cbn [put_all] in H.
  - now injection H as <-.
  - apply bind_ok in H as (fe1 & Hput & H). cbn [map fst] in Hj.
    eapply IH; eauto.
    + intros Hin. apply Hj. now right.
    + eapply own_put_other; eauto. intros ->. apply Hj. now left.
Qed.

Lemma put_all_value :
  forall ws fe fe' j node,
    put_all fe ws = Ok fe' -> In (j, node) ws ->
    (forall node', In (j, node') ws -> node' = node) ->
    own fe' j = Some node.
Proof.
  induction ws as [| [k n] ws IH]; intros fe fe' j node H Hin Hall; [contradiction |].
  cbn [put_all] in H. apply bind_ok in H as (fe1 & Hput & H).
  destruct (in_dec string_dec j (map fst ws)) as [Hj | Hj].
  - apply in_map_iff in Hj as ([j' node'] & Hfst & Hj). cbn [fst] in Hfst. subst j'.
    pose proof (Hall node' (or_intror Hj)) as ->.
    eapply IH; eauto. intros node' H'. apply Hall. now right.
  - destruct Hin as [Heq | Hin].
    + injection Heq as -> ->.
      eapply put_all_frame; eauto. eapply own_put_same; eauto.
    + exfalso. apply Hj. apply in_map_iff. now exists (j, node).
Qed.

Lemma lookup_rev_none :
  forall j (ws : props), lookup j (rev ws) = None -> ~ In j (map fst ws).
Proof.
  intros j ws H Hin. apply in_map_iff in Hin as ([j' x] & Hfst & Hin).
  cbn [fst] in Hfst. subst j'. apply in_rev in Hin.
  assert (Hk : In j (map fst (rev ws))).
  { apply in_map_iff. now exists (j, x). }
  apply has_key_in in Hk. unfold has_key in Hk. now rewrite H in Hk.
Qed.

Lemma lookup_snoc :
  forall j k (x : value) (a : props),
    lookup j (a ++ [(k, x)])%list
    = match lookup j a with
      | Some y => Some y
      | None => if String.eqb j k then Some x else None
      end.
Proof.
  intros j k x a. induction a as [| [k' y] a IH]; cbn; [reflexivity |].
  now destruct (String.eqb j k').
Qed.

(** After a sequence of assignments a key holds what was assigned to it
    last. *)
Lemma put_all_last :
  forall ws fe fe' j node,
    put_all fe ws = Ok fe' -> lookup j (rev ws) = Some node ->
    own fe' j = Some node.
Proof.
  induction ws as [| [k n] ws IH]; intros fe fe' j node H Hlast; [discriminate |].
  cbn [put_all] in H. apply bind_ok in H as (fe1 & Hput & H).
  cbn [rev] in Hlast. rewrite lookup_snoc in Hlast.
  destruct (lookup j (rev ws)) as [y |] eqn:E.
  - injection Hlast as <-. eapply IH; eauto.
  - destruct (String.eqb_spec j k) as [-> | _]; [| discriminate].
    injection Hlast as <-.
    eapply put_all_frame; eauto using lookup_rev_none, own_put_same.
Qed.

Lemma last_write_exists :
  forall j (ws : props),
    In j (map fst ws) ->
    exists node, lookup j (rev ws) = Some node /\ In (j, node) ws.
Proof.
  intros j ws Hin. destruct (lookup j (rev ws)) as [node |] eqn:E.
  - exists node. split; [reflexivity |]. apply in_rev. now apply lookup_in.
  - exfalso. exact (lookup_rev_none _ _ E Hin).
Qed.

(** X13.  The merged tree, key by key.  A key under which the backend
    tree has no leaf keeps the value it had.  A key under which the
    backend tree has a leaf holds the field error of a leaf under that
    key: the one assigned last in the sequence of the assignments, and so
    the field error of any leaf under the key when the leaves under it
    all give the same one. *)
Theorem merged_tree_by_key :
  forall fe be onMerge w fe' w' j,
    mergeErrors fe be onMerge w = Ok (fe', w') ->
    (forall x,
       (forall leaf, ~ flattened_leaf be j leaf) ->
       own fe j = Some x -> own fe' j = Some x)
    /\ (forall leaf,
          flattened_leaf be j leaf ->
          (forall leaf', flattened_leaf be j leaf' ->
                         field_error leaf' = field_error leaf) ->
          own fe' j = Some (field_error leaf))
    /\ (exists ws,
          writes be = Ok ws
          /\ (forall node, lookup j (rev ws) = Some node -> own fe' j = Some node)
          /\ (forall leaf,
                flattened_leaf be j leaf ->
                exists leaf',
                  flattened_leaf be j leaf'
                  /\ lookup j (rev ws) = Some (field_error leaf'))).
Proof.
  intros fe be onMerge w fe' w' j Hrun.
  destruct (mergeErrors_has_writes _ _ _ _ _ Hrun) as (ws & Hws).
  unfold mergeErrors in Hrun. pose proof Hws as Hws'. unfold writes in Hws.
  rewrite (mergeErrors_fuel_writes _ _ _ Hws) in Hrun.
  apply bind_ok in Hrun as (fe1 & Hput & Hrun). injection Hrun as <- _.
  split; [| split].
  - intros x Hnone Hown. eapply put_all_frame; eauto.
    intros Hin. apply in_map_iff in Hin as ([j' node] & Hfst & Hin).
    cbn [fst] in Hfst. subst j'.
    destruct (written_is_leaf _ _ _ _ _ Hws Hin) as (leaf & Hleaf & _).
    exact (Hnone leaf Hleaf).
  - intros leaf Hleaf Hsame. eapply put_all_value; eauto.
    + eapply leaf_is_written; eauto.
    + intros node' Hin.
      destruct (written_is_leaf _ _ _ _ _ Hws Hin) as (leaf' & Hleaf' & ->).
      now apply Hsame.
  - exists ws. split; [exact Hws' | split].
    + intros node Hlast. eapply put_all_last; eauto.
    + intros leaf Hleaf.
      assert (Hin : In j (map fst ws)).
      { apply in_map_iff. exists (j, field_error leaf). split; [reflexivity |].
        eapply leaf_is_written; eauto. }
      destruct (last_write_exists _ _ Hin) as (node & Hlast & Hnode).
      destruct (written_is_leaf _ _ _ _ _ Hws Hnode) as (leaf' & Hleaf' & ->).
      eauto.
Qed.

(** ** [mergeErrors]: merging twice *)

Lemma lookup_app :
  forall j (a b : props),
    lookup j (a ++ b)%list
    = match lookup j a with
      | Some x => Some x
      | None => lookup j b
      end.
Proof.
  intros j a b. induction a as [| [k x] a IH]; cbn; [reflexivity |].
  now destruct (String.eqb j k).
Qed.

Lemma lookup_not_in :
  forall j (ps : props), ~ In j (map fst ps) -> lookup j ps = None.
Proof.
  intros j ps H. destruct (lookup j ps) as [x |] eqn:E; [| reflexivity].
  exfalso. apply H. apply in_map_iff. exists (j, x). split; [reflexivity |].
  now apply lookup_in.
Qed.

(** The object that a sequence of assignments gives. *)
Lemma put_all_object :
  forall ws ps fe',
    put_all (VObj ps) ws = Ok fe' ->
    fe' = VObj (fold_left (fun acc kv => set_prop (fst kv) (snd kv) acc) ws ps)
    /\ forall k, In k (map fst ws) -> builtin k = false.
Proof.
  induction ws as [| [k node] ws IH]; intros ps fe' H; cbn [put_all] in H.
  - injection H as <-. split; [reflexivity | contradiction].
  - cbn [put] in H. destruct (builtin k) eqn:Hb; [discriminate |].
    cbn [bind] in H. destruct (IH _ _ H) as [-> Hkeys].
    split; [reflexivity |].
    intros k' [<- | Hin]; auto.
Qed.

Lemma put_all_object_ok :
  forall ws ps,
    (forall k, In k (map fst ws) -> builtin k = false) ->
    put_all (VObj ps) ws
    = Ok (VObj (fold_left (fun acc kv => set_prop (fst kv) (snd kv) acc) ws ps)).
Proof.
  induction ws as [| [k node] ws IH]; intros ps H; cbn [put_all]; [reflexivity |].
  cbn [put]. rewrite (H k (or_introl eq_refl)). cbn [bind fold_left fst snd].
  apply IH. intros k' Hin. apply H. now right.
Qed.

(** After a sequence of assignments a key holds what was assigned to it
    last. *)
Lemma fold_set_last :
  forall ws ps j,
    lookup j (fold_left (fun acc kv => set_prop (fst kv) (snd kv) acc) ws ps)
    = match lookup j (rev ws) with
      | Some x => Some x
      | None => lookup j ps
      end.
Proof.
  induction ws as [| [k node] ws IH]; intros ps j; cbn [fold_left rev fst snd];
    [reflexivity |].
  rewrite IH, lookup_app. destruct (lookup j (rev ws)); [reflexivity |].
  cbn [lookup]. destruct (String.eqb_spec j k) as [-> | Hjk].
  - apply lookup_set_same.
  - now apply lookup_set_other.
Qed.

Lemma map_fst_set_present :
  forall k v ps, In k (map fst ps) -> map fst (set_prop k v ps) = map fst ps.
Proof.
  intros k v ps H. apply has_key_in in H.
  rewrite (set_prop_present _ _ _ H). apply map_fst_replace.
Qed.

Lemma fold_set_present :
  forall ws ps,
    (forall k, In k (map fst ws) -> In k (map fst ps)) ->
    map fst (fold_left (fun acc kv => set_prop (fst kv) (snd kv) acc) ws ps)
    = map fst ps.
Proof.
  induction ws as [| [k node] ws IH]; intros ps H; cbn [fold_left fst snd];
    [reflexivity |].
  assert (Hk : In k (map fst ps)) by (apply H; now left).
  rewrite IH; [now apply map_fst_set_present |].
  intros k' Hin. rewrite (map_fst_set_present _ _ _ Hk). apply H. now right.
Qed.

Lemma fold_set_NoDup :
  forall ws ps,
    NoDup (map fst ps) ->
    NoDup (map fst (fold_left (fun acc kv => set_prop (fst kv) (snd kv) acc) ws ps)).
Proof.
  induction ws as [| [k node] ws IH]; intros ps H; cbn [fold_left fst snd]; auto.
  apply IH. now apply NoDup_set_prop.
Qed.

Lemma fold_set_owns :
  forall ws ps k,
    In k (map fst ws) ->
    In k (map fst (fold_left (fun acc kv => set_prop (fst kv) (snd kv) acc) ws ps)).
Proof.
  intros ws ps k Hin. apply has_key_in. unfold has_key. rewrite fold_set_last.
  destruct (lookup k (rev ws)) eqn:E; [reflexivity |].
  exfalso. apply in_map_iff in Hin as ([k' x] & Hfst & Hin). cbn [fst] in Hfst. subst k'.
  assert (Hk : In k (map fst (rev ws))).
  { apply in_map_iff. exists (k, x). split; [reflexivity |]. now apply in_rev in Hin. }
  apply has_key_in in Hk. unfold has_key in Hk. now rewrite E in Hk.
Qed.

(** Property lists with the same keys in the same order, none twice, and
    the same value under each key are equal. *)
Lemma props_ext :
  forall l1 l2 : props,
    map fst l1 = map fst l2 -> NoDup (map fst l1) ->
    (forall j, lookup j l1 = lookup j l2) ->
    l1 = l2.
Proof.
  induction l1 as [| [k v1] l1 IH]; intros [| [k' v2] l2] Hkeys Hnd Hlook;
    try discriminate; [reflexivity |].
  cbn [map fst] in Hkeys, Hnd. injection Hkeys as <- Hkeys.
  apply NoDup_cons_iff in Hnd as [Hk Hnd].
  pose proof (Hlook k) as Hv. cbn [lookup] in Hv. rewrite String.eqb_refl in Hv.
  injection Hv as <-. f_equal.
  apply IH; auto. intros j. destruct (String.eqb_spec j k) as [-> | Hjk].
  - rewrite (lookup_not_in _ _ Hk). rewrite Hkeys in Hk.
    now rewrite (lookup_not_in _ _ Hk).
  - specialize (Hlook j). cbn [lookup] in Hlook.
    destruct (String.eqb_spec j k); [contradiction | exact Hlook].
Qed.

Lemma fold_set_twice :
  forall ws ps,
    NoDup (map fst ps) ->
    let ps1 := fold_left (fun acc kv => set_prop (fst kv) (snd kv) acc) ws ps in
    fold_left (fun acc kv => set_prop (fst kv) (snd kv) acc) ws ps1 = ps1.
Proof.
  intros ws ps Hnd ps1. apply props_ext.
  - apply fold_set_present. intros k Hin. now apply fold_set_owns.
  - rewrite fold_set_present.
    + now apply fold_set_NoDup.
    + intros k Hin. now apply fold_set_owns.
  - intros j. rewrite fold_set_last. unfold ps1. rewrite fold_set_last.
    now destruct (lookup j (rev ws)).
Qed.

(** X14.  Merging is idempotent: when a merge of [be] into an object
    without repeated keys returns, merging [be] again into the tree it
    returned returns that tree unchanged (keys, values and order); only the
    callback is called once more. *)
Theorem mergeErrors_idempotent :
  forall ps be onMerge onMerge' w w1 w' fe1,
    NoDup (map fst ps) ->
    mergeErrors (VObj ps) be onMerge w = Ok (fe1, w1) ->
    mergeErrors fe1 be onMerge' w'
    = Ok (fe1, if truthy be then onMerge' fe1 w' else w').
Proof.
  intros ps be onMerge onMerge' w w1 w' fe1 Hnd Hrun.
  destruct (mergeErrors_has_writes _ _ _ _ _ Hrun) as (ws & Hws).
  unfold mergeErrors in *. unfold writes in Hws.
  rewrite (mergeErrors_fuel_writes _ _ _ Hws) in Hrun.
  rewrite (mergeErrors_fuel_writes _ _ _ Hws).
  apply bind_ok in Hrun as (fe & Hput & Hrun). injection Hrun as <- _.
  destruct (put_all_object _ _ _ Hput) as [-> Hkeys].
  rewrite (put_all_object_ok _ _ Hkeys). cbn [bind].
  now rewrite (fold_set_twice ws ps Hnd).
Qed.

(** ** [mergeErrors]: when it raises *)

Lemma mergeErrors_fuel_object :
  forall n ps be onMerge w st,
    mergeErrors_fuel n (VObj ps) be onMerge w = Ok st ->
    exists ps', fst st = VObj ps'.
Proof.
  intros n ps be onMerge w st H.
  destruct (mergeErrors_fuel_has_writes _ _ _ _ _ _ H) as (ws & Hws).
  rewrite (mergeErrors_fuel_writes _ _ _ Hws) in H.
  apply bind_ok in H as (fe & Hput & H). injection H as <-.
  destruct (put_all_object _ _ _ Hput) as [-> _]. cbn [fst]. eauto.
Qed.

Lemma parseRightValue_throw :
  forall k rv e,
    recurses rv = true -> parseRightValue k rv = Throw e ->
    e = TypeError /\ k = "root" /\ rv = VNull.
Proof.
  intros k rv e Hr H. unfold parseRightValue in H.
  destruct (String.eqb_spec k "root") as [-> | _]; [| discriminate].
  destruct rv; try discriminate; cbn in H; now injection H as <-.
Qed.

Lemma merge_entries_throw :
  forall recur : value -> value -> W -> outcome (value * W),
    (forall ps sub w st, recur (VObj ps) sub w = Ok st -> exists ps', fst st = VObj ps') ->
    (forall ps sub w e, recur (VObj ps) sub w = Throw e ->
                        e = TypeError /\ null_root_reached sub) ->
    forall es ps w e,
      merge_entries recur es (VObj ps) w = Throw e ->
      e = TypeError
      /\ (In ("root", VNull) es
          \/ exists k rv sub,
               In (k, rv) es /\ recurses rv = true
               /\ parseRightValue k rv = Ok sub /\ null_root_reached sub).
Proof.
  intros recur Hobj Hthrow. induction es as [| [k rv] es IH]; intros ps w e H;
    [discriminate |].
  cbn [merge_entries] in H.
  destruct (merge_entry recur (VObj ps) w k rv) as [st | e' | |] eqn:Hentry;
    cbn [bind] in H; try discriminate.
  - assert (Hst : exists ps', fst st = VObj ps').
    { unfold merge_entry in Hentry. fold (recurses rv) in Hentry.
      destruct (recurses rv).
      - apply bind_ok in Hentry as (sub & _ & Hentry). eapply Hobj; eauto.
      - destruct (truthy (opt_member rv "message")).
        + cbn [put] in Hentry. destruct (builtin k); [discriminate |].
          injection Hentry as <-. cbn [fst]. eauto.
        + destruct (typeof_string rv).
          * cbn [put] in Hentry. destruct (builtin k); [discriminate |].
            injection Hentry as <-. cbn [fst]. eauto.
          * injection Hentry as <-. cbn [fst]. eauto. }
    destruct Hst as (ps' & Hst). rewrite Hst in H.
    destruct (IH _ _ _ H) as [-> [Hin | (k' & rv' & sub & Hin & Hrest)]].
    + split; [reflexivity |]. left. now right.
    + split; [reflexivity |]. right. exists k', rv', sub. split; [now right | exact Hrest].
  - injection H as <-.
    unfold merge_entry in Hentry. fold (recurses rv) in Hentry.
    destruct (recurses rv) eqn:Hr.
    + destruct (parseRightValue k rv) as [sub | e1 | |] eqn:Hsub;
        cbn [bind] in Hentry; try discriminate.
      * destruct (Hthrow _ _ _ _ Hentry) as [-> Hnull].
        split; [reflexivity |]. right. exists k, rv, sub. repeat split; auto. now left.
      * injection Hentry as <-.
        destruct (parseRightValue_throw _ _ _ Hr Hsub) as (-> & -> & ->).
        split; [reflexivity |]. left. now left.
    + destruct (truthy (opt_member rv "message")).
      * cbn [put] in Hentry. destruct (builtin k); discriminate.
      * destruct (typeof_string rv); [| discriminate].
        cbn [put] in Hentry. destruct (builtin k); discriminate.
Qed.

Lemma mergeErrors_fuel_throw :
  forall n ps be onMerge w e,
    mergeErrors_fuel n (VObj ps) be onMerge w = Throw e ->
    e = TypeError /\ null_root_reached be.
Proof.
  induction n as [| n IH]; intros ps be onMerge w e H; cbn [mergeErrors_fuel] in H;
    destruct (truthy be); cbn [negb] in H; try discriminate.
  destruct (merge_entries _ (entries be) (VObj ps) w) as [st | e' | |] eqn:Hloop;
    cbn [bind] in H; try discriminate.
  injection H as <-.
  apply merge_entries_throw in Hloop.
  - destruct Hloop as [-> [Hin | (k & rv & sub & Hin & Hr & Hsub & Hnull)]].
    + split; [reflexivity | now apply NullRootHere].
    + split; [reflexivity | eapply NullRootBelow; eauto].
  - intros ps0 sub w0 st0 H0. eapply mergeErrors_fuel_object; eauto.
  - intros ps0 sub w0 e0 H0. exact (IH _ _ _ _ _ H0).
Qed.

Lemma null_root_never_merges :
  forall be,
    null_root_reached be ->
    forall fe onMerge w st, mergeErrors fe be onMerge w <> Ok st.
Proof.
  induction 1 as [be Hin | be k rv sub Hin Hr Hsub _ IH]; intros fe onMerge w st Hrun.
  - destruct (mergeErrors_loop _ _ _ _ _ (entries_truthy _ _ _ Hin) Hrun)
      as (st1 & Hloop & _).
    destruct (merge_entries_in _
                (fun fe0 sub w0 st0 H0 => mergeErrors_keeps_keys fe0 sub noop w0 st0 H0)
                _ _ _ _ _ _ Hloop Hin) as (fe0 & w0 & st0 & Hentry & _).
    discriminate.
  - destruct (mergeErrors_loop _ _ _ _ _ (entries_truthy _ _ _ Hin) Hrun)
      as (st1 & Hloop & _).
    destruct (merge_entries_in _
                (fun fe0 sub w0 st0 H0 => mergeErrors_keeps_keys fe0 sub noop w0 st0 H0)
                _ _ _ _ _ _ Hloop Hin) as (fe0 & w0 & st0 & Hentry & _).
    unfold merge_entry in Hentry. fold (recurses rv) in Hentry.
    rewrite Hr, Hsub in Hentry. cbn [bind] in Hentry.
    exact (IH _ _ _ _ Hentry).
Qed.

(** X15.  The only error that a merge into an object raises is the
    [TypeError] of reading [serverError] on a ["root"] entry that holds
    [null]; and whenever such an entry is reached, at any depth, the merge
    does not return, whatever the frontend tree. *)
Theorem mergeErrors_raises_on_null_root :
  (forall ps be onMerge w e,
     mergeErrors (VObj ps) be onMerge w = Throw e ->
     e = TypeError /\ null_root_reached be)
  /\ (forall fe be onMerge w st,
     null_root_reached be -> mergeErrors fe be onMerge w <> Ok st).
Proof.
  split.
  - intros ps be onMerge w e. apply mergeErrors_fuel_throw.
  - intros fe be onMerge w st H. now apply null_root_never_merges.
Qed.

(** ** [mergeErrors]: the two reserved sub-fields of ["root"] together *)

(** X16.  Of the two reserved sub-fields of an entry under ["root"] that
    is an object without a truthy message of its own, [random] takes
    precedence: when it is an object with a message, the entry contributes
    the single key ["root.random"], whatever [serverError] holds; a
    [serverError] that is present as well is dropped.  (A ["root"] entry
    with a message of its own is a leaf: it is stored under ["root"] and
    nothing is rewritten.) *)
Theorem random_takes_precedence :
  forall fe r rest onMerge w s,
    has_message (VObj r) = false ->
    lookup "random" r = Some (VObj s) ->
    NoDup (map fst s) ->
    has_message (VObj s) = true ->
    mergeErrors fe (VObj (("root", VObj r) :: rest)) onMerge w
    = (fe1 <- put fe "root.random" (root_node "random" (VObj s)) ;;
       mergeErrors fe1 (VObj rest) onMerge w).
Proof.
  intros fe r rest onMerge w s Hr Hrandom Hnd Hs.
  apply (merge_root_entry fe r rest onMerge w "random" "random" s); auto.
  unfold parseRightValue. cbn [String.eqb Ascii.eqb Bool.eqb andb member bind opt_member].
  now rewrite Hrandom.
Qed.

(** ** [mergeErrors]: nested entries *)



End Utilities.

(** * Closed instances *)

(** The examples below run the functions on the host of the first part,
    with a callback that counts its calls or records the tree it finds. *)

(** ** The examples of the specification *)

Example flatten_dotted_keys :
  generateFormData host_builtin [("a.b", EStr "1"); ("a.c", EStr "2")]
  = Ok (VObj [("a", VObj [("b", VStr "1"); ("c", VStr "2")])]).
Proof. reflexivity. Qed.

Example flatten_numeric_segments :
  generateFormData host_builtin [("list.0", EStr "x"); ("list.1", EStr "y")]
  = Ok (VObj [("list", VArr [VStr "x"; VStr "y"] [])]).
Proof. reflexivity. Qed.

Example flatten_mixed_usage :
  generateFormData host_builtin [("a.0", EStr "x"); ("a.b", EStr "y")]
  = Ok (VObj [("a", VArr [VStr "x"] [("b", VStr "y")])]).
Proof. reflexivity. Qed.

Example merge_absent_backend :
  mergeErrors host_builtin nat (VObj []) VUndefined counting 0 = Ok (VObj [], 0).
Proof. reflexivity. Qed.

Example merge_plain_string :
  mergeErrors host_builtin nat (VObj []) (VObj [("name", VStr "Required")]) counting 0
  = Ok (VObj [("name", VObj [("message", VStr "Required"); ("type", VStr "custom")])],
        1).
Proof. reflexivity. Qed.

Example merge_nested_object :
  mergeErrors host_builtin nat (VObj [])
    (VObj [("address", VObj [("city", VStr "Required")])]) counting 0
  = Ok (VObj [("city", VObj [("message", VStr "Required"); ("type", VStr "custom")])],
        1).
Proof. reflexivity. Qed.

Example isGet_examples :
  isGet (mkRequest "get" "http://localhost/" (Ok [])) = true
  /\ isGet (mkRequest "GET" "http://localhost/" (Ok [])) = true
  /\ isGet (mkRequest "POST" "http://localhost/" (Ok [])) = false.
Proof. repeat split. Qed.

(** ** Instances of the theorems *)

(** C1, counterexample.  With both reserved sub-fields present, only
    ["root.random"] is in the merged tree; and a [serverError] that has a
    type of its own keeps it. *)
Lemma root_entry_not_as_claimed :
  (exists merged : props,
     mergeErrors host_builtin nat (VObj [])
       (VObj [("root", VObj [("serverError", VObj [("message", VStr "boom")]);
                             ("random", VObj [("message", VStr "oops")])])])
       counting 0
     = Ok (VObj merged, 1)
     /\ lookup "root.random" merged
        = Some (VObj [("type", VStr "random"); ("message", VStr "oops")])
     /\ lookup "root.serverError" merged = None)
  /\ mergeErrors host_builtin nat (VObj [])
       (VObj [("root", VObj [("serverError",
                              VObj [("type", VStr "500"); ("message", VStr "boom")])])])
       counting 0
     = Ok (VObj [("root.serverError",
                  VObj [("type", VStr "500"); ("message", VStr "boom")])], 1).
Proof.
  split; [| reflexivity].
  eexists. split; [vm_compute; reflexivity | split; reflexivity].
Qed.

(** C1, witness: the example of the specification. *)
Lemma root_entry_rewritten_witness :
  mergeErrors host_builtin nat (VObj [])
    (VObj [("root", VObj [("serverError", VObj [("message", VStr "boom")])])])
    counting 0
  = Ok (VObj [("root.serverError",
               VObj [("type", VStr "400"); ("message", VStr "boom")])], 1).
Proof.
  destruct (root_entry_rewritten host_builtin nat (VObj [])
              [("serverError", VObj [("message", VStr "boom")])] []
              counting 0 "serverError" "random" "400" [("message", VStr "boom")])
    as [H _].
  - left. repeat split.
  - reflexivity.
  - reflexivity.
  - reflexivity.
  - constructor; [intros [] | constructor].
  - reflexivity.
  - rewrite H. reflexivity.
Defined.





(** C4, counterexample: ["Get"] is ["GET"] up to case, and [isGet]
    answers false. *)
Lemma isGet_mixed_case_is_false :
  equal_ignoring_case "Get" "GET" = true
  /\ isGet (mkRequest "Get" "http://localhost/" (Ok [])) = false.
Proof. split; reflexivity. Qed.

(** C5, counterexample: a value exists under the key, the empty string,
    and the whole entry set is flattened. *)
Lemma empty_payload_is_flattened :
  FormData_get [("formData", EStr ""); ("name", EStr "Ada")] "formData" = VStr ""
  /\ parseFormData host_builtin host_parse
       (mkRequest "POST" "http://localhost/"
          (Ok [("formData", EStr ""); ("name", EStr "Ada")]))
       "formData"
     = Ok (VObj [("formData", VStr ""); ("name", VStr "Ada")]).
Proof. split; reflexivity. Qed.

(** C5, witness. *)
Lemma parseFormData_cases_witness :
  parseFormData host_builtin host_parse
    (mkRequest "POST" "http://localhost/" (Ok [("formData", EStr "{}")]))
    "formData"
  = Ok (VObj []).
Proof.
  destruct (parseFormData_cases host_builtin host_parse
              (mkRequest "POST" "http://localhost/" (Ok [("formData", EStr "{}")]))
              "formData" [("formData", EStr "{}")] eq_refl) as (_ & _ & _ & H).
  rewrite (H "{}"); [reflexivity | reflexivity | discriminate].
Defined.

(** C6, witness: a nested object goes through [createFormData] and
    [parseFormData]. *)
Lemma parseFormData_createFormData_roundtrip_witness :
  parseFormData host_builtin host_parse
    (mkRequest "POST" "http://localhost/"
       (Ok (createFormData host_stringify
              (VObj [("name", VStr "Ada"); ("age", VNum 36);
                     ("tags", VArr [VStr "x"; VStr "y"] [])])
              "payload")))
    "payload"
  = Ok (VObj [("name", VStr "Ada"); ("age", VNum 36);
              ("tags", VArr [VStr "x"; VStr "y"] [])]).
Proof.
  eapply (parseFormData_createFormData_roundtrip host_builtin host_stringify host_parse).
  - reflexivity.
  - reflexivity.
  - vm_compute. reflexivity.
  - reflexivity.
Defined.

(** C7, witness: a resolver that reports one error. *)
Lemma validateFormData_result_witness :
  validateFormData (VObj [("email", VStr "")])
    (fun _ _ _ =>
       Ok (VObj [("errors", VObj [("email", VStr "Required")]);
                 ("values", VObj [])]))
  = Ok (VObj [("errors", VObj [("email", VStr "Required")]);
              ("data", VUndefined)]).
Proof.
  destruct (validateFormData_result (VObj [("email", VStr "")])
              (fun _ _ _ =>
                 Ok (VObj [("errors", VObj [("email", VStr "Required")]);
                           ("values", VObj [])]))
              (VObj [("errors", VObj [("email", VStr "Required")]);
                     ("values", VObj [])])
              (VObj [("email", VStr "Required")]) (VObj []) ["email"]
              eq_refl eq_refl eq_refl eq_refl) as [H _].
  apply H. cbn. lia.
Defined.







(** ** Instances of the further properties *)

(** X2, witness. *)
Lemma generateFormData_scalar_keys_witness :
  generateFormData host_builtin
    [("name", EStr "Ada"); ("email", EStr "a@b.c"); ("name", EStr "Grace")]
  = Ok (VObj [("name", VStr "Grace"); ("email", VStr "a@b.c")]).
Proof.
  apply (generateFormData_scalar_keys host_builtin
           [("name", EStr "Ada"); ("email", EStr "a@b.c"); ("name", EStr "Grace")]).
  intros key e [[= <- <-] | [[= <- <-] | [[= <- <-] | []]]]; repeat split.
Defined.

(** X3, witness. *)
Lemma mergeErrors_stores_leaf_witness :
  mergeErrors host_builtin nat (VObj [])
    (VObj [("email", VObj [("message", VStr "Taken"); ("type", VStr "unique")])])
    counting 0
  = Ok (VObj [("email", VObj [("type", VStr "unique"); ("message", VStr "Taken")])], 1).
Proof.
  rewrite (mergeErrors_stores_leaf host_builtin nat); reflexivity.
Defined.

(** X4, witness. *)
Lemma mergeErrors_removes_no_key_witness :
  exists y,
    own (VObj [("age", VObj [("message", VStr "Too young"); ("type", VStr "min")]);
               ("name", VObj [("message", VStr "Required"); ("type", VStr "custom")])])
      "age"
    = Some y.
Proof.
  apply (mergeErrors_removes_no_key host_builtin nat
           (VObj [("age", VObj [("message", VStr "Too young"); ("type", VStr "min")])])
           (VObj [("name", VStr "Required")]) counting 0 _ 1 "age"
           (VObj [("message", VStr "Too young"); ("type", VStr "min")]));
    reflexivity.
Defined.

(** X5, witness: the entry written last is read back along its key
    parts. *)
Lemma last_entry_is_read_back_witness :
  at_path (VObj [("user", VObj [("name", VStr "Ada"); ("email", VStr "a@b.c")])])
    ["user"; "email"]
  = Some (VStr "a@b.c").
Proof.
  destruct (last_entry_is_read_back host_builtin
              [("user.name", EStr "Ada")] "user.email" (EStr "a@b.c")
              (VObj [("user", VObj [("name", VStr "Ada")])])
              (VObj [("user", VObj [("name", VStr "Ada"); ("email", VStr "a@b.c")])])
              "user" ["email"] eq_refl eq_refl eq_refl) as [H _].
  exact (H eq_refl).
Defined.

(** X6, witness: an append next to a value and an assignment elsewhere
    leave the value where it was. *)
Lemma undisturbed_values_stay_witness :
  at_path (VObj [("user", VObj [("name", VStr "Ada"); ("tags", VArr [VStr "x"] [])]);
                 ("age", VStr "36")])
    ["user"; "name"]
  = Some (VStr "Ada").
Proof.
  apply (undisturbed_values_stay host_builtin
           [("user.name", EStr "Ada")]
           [("user.tags[]", EStr "x"); ("age", EStr "36")]
           (VObj [("user", VObj [("name", VStr "Ada")])])
           (VObj [("user", VObj [("name", VStr "Ada"); ("tags", VArr [VStr "x"] [])]);
                  ("age", VStr "36")])
           ["user"; "name"] (VStr "Ada") eq_refl eq_refl eq_refl).
  intros key e [[= <- <-] | [[= <- <-] | []]]; reflexivity.
Defined.

(** X7, witness: the numbers [5] and [0] do not place the values. *)
Lemma numeric_parts_accumulate_witness :
  generateFormData host_builtin [("tags.5", EStr "a"); ("tags.0", EStr "b")]
  = Ok (VObj [("tags", VArr [VStr "a"; VStr "b"] [])]).
Proof.
  apply (numeric_parts_accumulate host_builtin "tags" ("5", EStr "a") [("0", EStr "b")]).
  - reflexivity.
  - reflexivity.
  - repeat constructor.
Defined.

(** X9, witness: a GET request whose search parameters pass the
    resolver. *)
Lemma getValidatedFormData_result_witness :
  exists errors d,
    VObj [("errors", VUndefined); ("data", VObj [("q", VStr "rocq")]);
          ("receivedValues", VObj [("q", VStr "rocq")])]
    = VObj [("errors", errors); ("data", d);
            ("receivedValues", VObj [("q", VStr "rocq")])]
    /\ (errors = VUndefined \/ d = VUndefined).
Proof.
  destruct (getValidatedFormData_result host_builtin
              (fun _ => Ok [("q", EStr "rocq")]) host_parse
              (mkRequest "GET" "http://localhost/?q=rocq" (Ok []))
              (fun data _ _ => Ok (VObj [("errors", VObj []); ("values", data)]))
              (VObj [("errors", VUndefined); ("data", VObj [("q", VStr "rocq")]);
                     ("receivedValues", VObj [("q", VStr "rocq")])])
              eq_refl)
    as (data & result & Hdata & _ & _ & errors & d & Hout & Hone).
  injection Hdata as <-. now exists errors, d.
Defined.

(** X10, witness: data sent with [createFormData] are validated and
    returned as received. *)
Lemma getValidatedFormData_roundtrip_witness :
  getValidatedFormData host_builtin (fun _ => Ok []) host_parse
    (mkRequest "POST" "http://localhost/"
       (Ok (createFormData host_stringify
              (VObj [("name", VStr "Ada"); ("age", VNum 36)]) "formData")))
    (fun data _ _ => Ok (VObj [("errors", VObj []); ("values", data)]))
  = Ok (VObj [("errors", VUndefined);
              ("data", VObj [("name", VStr "Ada"); ("age", VNum 36)]);
              ("receivedValues", VObj [("name", VStr "Ada"); ("age", VNum 36)])]).
Proof.
  eapply (getValidatedFormData_roundtrip host_builtin (fun _ => Ok [])
            host_stringify host_parse
            (VObj [("name", VStr "Ada"); ("age", VNum 36)]) _ _ _
            (VObj [("errors", VObj []);
                   ("values", VObj [("name", VStr "Ada"); ("age", VNum 36)])])).
  - reflexivity.
  - reflexivity.
  - vm_compute. reflexivity.
  - reflexivity.
  - reflexivity.
  - reflexivity.
  - reflexivity.
Defined.

(** X11, witness: a number among the backend entries leaves no trace. *)
Lemma mergeErrors_passes_over_witness :
  mergeErrors host_builtin nat (VObj [])
    (VObj [("count", VNum 3); ("name", VStr "Required")]) counting 0
  = Ok (VObj [("name", VObj [("message", VStr "Required"); ("type", VStr "custom")])], 1).
Proof.
  rewrite (mergeErrors_passes_over host_builtin nat); reflexivity.
Defined.

(** X12, witness: the assignments of a tree with a nested entry. *)
Lemma mergeErrors_is_a_fold_of_assignments_witness :
  mergeErrors host_builtin nat (VObj [])
    (VObj [("address", VObj [("city", VStr "Required")]);
           ("name", VObj [("message", VStr "Taken"); ("type", VStr "unique")])])
    counting 0
  = Ok (VObj [("city", VObj [("message", VStr "Required"); ("type", VStr "custom")]);
              ("name", VObj [("type", VStr "unique"); ("message", VStr "Taken")])], 1).
Proof.
  destruct (mergeErrors_is_a_fold_of_assignments host_builtin nat) as [_ H].
  destruct (H (VObj [("address", VObj [("city", VStr "Required")]);
                     ("name", VObj [("message", VStr "Taken"); ("type", VStr "unique")])])
              [("city", VObj [("message", VStr "Required"); ("type", VStr "custom")]);
               ("name", VObj [("type", VStr "unique"); ("message", VStr "Taken")])]
              eq_refl) as [Hfold _].
  rewrite Hfold. reflexivity.
Defined.

(** X13, witness: two leaves under the key [name]; the one merged last
    is the one that stays. *)
Lemma merged_tree_by_key_witness :
  own (VObj [("name", VObj [("message", VStr "New"); ("type", VStr "custom")])]) "name"
  = Some (VObj [("message", VStr "New"); ("type", VStr "custom")]).
Proof.
  destruct (merged_tree_by_key host_builtin nat (VObj [])
              (VObj [("name", VStr "Old"); ("user", VObj [("name", VStr "New")])])
              counting 0
              (VObj [("name", VObj [("message", VStr "New"); ("type", VStr "custom")])])
              1 "name" eq_refl) as (_ & _ & ws & Hws & Hlast & _).
  apply Hlast.
  assert (E : ws = [("name", VObj [("message", VStr "Old"); ("type", VStr "custom")]);
                    ("name", VObj [("message", VStr "New"); ("type", VStr "custom")])]).
  { cbv in Hws. now injection Hws. }
  rewrite E. reflexivity.
Defined.

(** X14, witness: a second merge of the same backend tree. *)
Lemma mergeErrors_idempotent_witness :
  mergeErrors host_builtin nat
    (VObj [("name", VObj [("message", VStr "Required"); ("type", VStr "custom")])])
    (VObj [("user", VObj [("name", VStr "Required")])]) counting 5
  = Ok (VObj [("name", VObj [("message", VStr "Required"); ("type", VStr "custom")])], 6).
Proof.
  apply (mergeErrors_idempotent host_builtin nat []
           (VObj [("user", VObj [("name", VStr "Required")])]) counting counting 0 1 5
           (VObj [("name", VObj [("message", VStr "Required"); ("type", VStr "custom")])])).
  - constructor.
  - reflexivity.
Defined.

(** X15, witness: a ["root"] entry that holds [null], at the top and
    one level down. *)
Lemma mergeErrors_raises_on_null_root_witness :
  (TypeError = TypeError /\ null_root_reached (VObj [("root", VNull)]))
  /\ mergeErrors host_builtin nat (VObj [])
       (VObj [("user", VObj [("root", VNull)])]) counting 0
     <> Ok (VObj [], 1).
Proof.
  destruct (mergeErrors_raises_on_null_root host_builtin nat) as [H1 H2].
  split.
  - apply (H1 [] (VObj [("root", VNull)]) counting 0 TypeError). reflexivity.
  - apply H2.
    apply NullRootBelow with "user" (VObj [("root", VNull)]) (VObj [("root", VNull)]);
      [left; reflexivity | reflexivity | reflexivity |].
    apply NullRootHere. left. reflexivity.
Defined.

(** X16, witness: [serverError] and [random] together. *)
Lemma random_takes_precedence_witness :
  mergeErrors host_builtin nat (VObj [])
    (VObj [("root", VObj [("serverError", VObj [("message", VStr "down")]);
                          ("random", VObj [("message", VStr "odd")])])])
    counting 0
  = Ok (VObj [("root.random",
               VObj [("type", VStr "random"); ("message", VStr "odd")])], 1).
Proof.
  rewrite (random_takes_precedence host_builtin nat _ _ _ _ _ [("message", VStr "odd")]).
  - reflexivity.
  - reflexivity.
  - reflexivity.
  - constructor; [intros [] | constructor].
  - reflexivity.
Defined.
